(** * Screenshot2CodeAgent: the code-fence extractor [parse_and_clean_code]

    A shallow embedding of [src/my_agent/agent.py], lines 16-43, and of the
    part of Python it relies on: [str.strip], [str()], [print], and the
    backtracking search of [re] on the one pattern the function compiles. *)

From Stdlib Require Import Ascii String Decimal DecimalString.
From Stdlib Require Import List NArith ZArith Lia Bool.
Import ListNotations.
Open Scope list_scope.

(** ** Python strings

    A Python [str] is a sequence of Unicode code points. *)

Definition char := N.
Definition str := list char.

Definition of_string (s : string) : str :=
  map N_of_ascii (list_ascii_of_string s).

Definition backtick : char := 96%N.
Definition nl : char := 10%N.
Definition tab : char := 9%N.

(** [Py_UNICODE_ISSPACE]: the test behind both [str.strip()] with no
    argument and the [\s] category of [re] on [str] patterns. *)
Definition is_space (c : char) : bool :=
  ((9 <=? c) && (c <=? 13)
   || (28 <=? c) && (c <=? 32)
   || (c =? 133) || (c =? 160) || (c =? 5760)
   || (8192 <=? c) && (c <=? 8202)
   || (c =? 8232) || (c =? 8233) || (c =? 8239) || (c =? 8287)
   || (c =? 12288))%N.

(** The character set [[a-zA-Z0-9_]] of the pattern. *)
Definition is_word (c : char) : bool :=
  ((97 <=? c) && (c <=? 122)
   || (65 <=? c) && (c <=? 90)
   || (48 <=? c) && (c <=? 57)
   || (c =? 95))%N.

(** The character set [[\s\S]] of the pattern. *)
Definition is_any (c : char) : bool := is_space c || negb (is_space c).

Fixpoint drop_while (p : char -> bool) (s : str) : str :=
  match s with
  | [] => []
  | c :: s' => if p c then drop_while p s' else s
  end.

Fixpoint take_while (p : char -> bool) (s : str) : str :=
  match s with
  | [] => []
  | c :: s' => if p c then c :: take_while p s' else []
  end.

Definition lstrip (s : str) : str := drop_while is_space s.

Definition rstrip (s : str) : str := rev (lstrip (rev s)).

(** [s.strip()] *)
Definition strip (s : str) : str := rstrip (lstrip s).

(** ** The fragment of [re] used by the source *)

Inductive regex : Type :=
| Lit (c : char)                  (* a literal character *)
| Cls (p : char -> bool)          (* one character of a set *)
| Seq (r1 r2 : regex)             (* r1 r2 *)
| Star (p : char -> bool)         (* set*, greedy *)
| StarLazy (p : char -> bool)     (* set*?, lazy *)
| NonCapture (r : regex)          (* (?:r) *)
| Group1 (r : regex).             (* (r), the group numbered 1 *)

(** A match object: its span and what group 1 holds ([None] when the group
    took no part in the match). *)
Record Match : Type := mkMatch {
  m_start : nat;
  m_end : nat;
  m_group1 : option str
}.

Section Engine.
Variable R : Type.

(** A continuation receives the text still to be matched and the current
    content of group 1. *)
Definition cont := str -> option str -> option R.

(** Greedy repetition: as many characters as possible first, then one
    fewer at each backtrack. *)
Fixpoint star_greedy (p : char -> bool) (s : str) (g : option str)
         (k : cont) : option R :=
  match s with
  | c :: s' =>
      if p c then
        match star_greedy p s' g k with
        | Some r => Some r
        | None => k s g
        end
      else k s g
  | [] => k s g
  end.

(** Lazy repetition: as few characters as possible first, then one more
    at each backtrack. *)
Fixpoint star_lazy (p : char -> bool) (s : str) (g : option str)
         (k : cont) : option R :=
  match k s g with
  | Some r => Some r
  | None =>
      match s with
      | c :: s' => if p c then star_lazy p s' g k else None
      | [] => None
      end
  end.

Fixpoint exec (r : regex) (s : str) (g : option str) (k : cont)
  : option R :=
  match r with
  | Lit c =>
      match s with
      | c' :: s' => if N.eqb c c' then k s' g else None
      | [] => None
      end
  | Cls p =>
      match s with
      | c' :: s' => if p c' then k s' g else None
      | [] => None
      end
  | Seq r1 r2 => exec r1 s g (fun s' g' => exec r2 s' g' k)
  | Star p => star_greedy p s g k
  | StarLazy p => star_lazy p s g k
  | NonCapture r' => exec r' s g k
  | Group1 r' =>
      exec r' s g
           (fun s' _ => k s' (Some (firstn (length s - length s') s)))
  end.
End Engine.
Arguments star_greedy {R} p s g k.
Arguments star_lazy {R} p s g k.
Arguments exec {R} r s g k.

(** [pattern.match] anchored at offset [i], where [s] is the text from [i]. *)
Definition match_at (r : regex) (s : str) (i : nat) : option Match :=
  exec r s None
       (fun s' g => Some (mkMatch i (i + (length s - length s')) g)).

(** [pattern.search]: the match at the leftmost offset that has one. *)
Fixpoint search_from (r : regex) (s : str) (i : nat) : option Match :=
  match match_at r s i with
  | Some m => Some m
  | None =>
      match s with
      | [] => None
      | _ :: s' => search_from r s' (S i)
      end
  end.

Definition search (r : regex) (s : str) : option Match := search_from r s 0.

(** ** Python values, exceptions and standard output *)

Inductive exn : Type :=
| AttributeError
| ValueError
| KeyError (key : str)
| UnicodeEncodeError
| OtherError (name : str).       (* an exception of any other class *)

Inductive outcome (A : Type) : Type :=
| Return (a : A)
| Raise (e : exn).
Arguments Return {A} a.
Arguments Raise {A} e.

(** A value of any type other than [str], [int], [bool] and [NoneType] is
    seen through the one thing the source does with it: [PyObject r] is a
    value on which [str()] has the outcome [r]. *)
Inductive pyval : Type :=
| PyStr (s : str)
| PyInt (z : Z)
| PyBool (b : bool)
| PyNone
| PyObject (str_of : outcome str).

Definition isinstance_str (v : pyval) : bool :=
  match v with PyStr _ => true | _ => false end.

(** The text of [str(v)], for a value on which [str()] returns. *)
Definition py_str (v : pyval) : str :=
  match v with
  | PyStr s => s
  | PyInt z => of_string (NilZero.string_of_int (Z.to_int z))
  | PyBool true => of_string "True"
  | PyBool false => of_string "False"
  | PyNone => of_string "None"
  | PyObject (Return s) => s
  | PyObject (Raise _) => []
  end.

(** The number of decimal digits of an integer, its sign left out. *)
Definition int_digits (z : Z) : nat :=
  match Z.to_int z with
  | Decimal.Pos d => Decimal.nb_digits d
  | Decimal.Neg d => Decimal.nb_digits d
  end.

(** [sys.int_info.default_max_str_digits]: converting an [int] of more
    digits to decimal text raises [ValueError]. *)
Definition int_max_str_digits : nat := 4300.

(** The call [str(v)]. *)
Definition str_call (v : pyval) : outcome str :=
  match v with
  | PyInt z =>
      if Nat.leb (int_digits z) int_max_str_digits
      then Return (py_str v) else Raise ValueError
  | PyObject r => r
  | _ => Return (py_str v)
  end.

(** What printing has written to standard output so far, one item for each
    call of [print]. *)
Definition stdout := list str.

(** A computation reads and extends standard output, and returns or raises. *)
Definition Py (A : Type) : Type := stdout -> outcome A * stdout.

Definition ret {A} (a : A) : Py A := fun out => (Return a, out).

Definition raise {A} (e : exn) : Py A := fun out => (Raise e, out).

Definition bind {A B} (m : Py A) (f : A -> Py B) : Py B :=
  fun out =>
    match m out with
    | (Return a, out') => f a out'
    | (Raise e, out') => (Raise e, out')
    end.

Notation "x <- m ;; f" := (bind m (fun x => f))
  (at level 61, m at next level, right associativity).
Notation "m ;;; f" := (bind m (fun _ => f))
  (at level 61, right associativity).

Definition py_call_str (v : pyval) : Py str := fun out => (str_call v, out).

(** Standard output is a text stream in UTF-8 with the strict error
    handler: a lone surrogate (U+D800 to U+DFFF) cannot be encoded. *)
Definition is_surrogate (c : char) : bool :=
  ((55296 <=? c) && (c <=? 57343))%N.

Definition encodable (line : str) : bool :=
  forallb (fun c => negb (is_surrogate c)) line.

(** [print(line)]: the text is encoded before anything is written, so a
    failing call writes nothing. *)
Definition py_print (line : str) : Py unit :=
  fun out =>
    if encodable line then (Return tt, out ++ [line])
    else (Raise UnicodeEncodeError, out).

(** [m.group(1).strip()]: an [AttributeError] when group 1 is [None]. *)
Definition group1_strip (m : Match) : Py str :=
  match m_group1 m with
  | Some g => ret (strip g)
  | None => raise AttributeError
  end.

(** ** The source function *)

Definition fence : str := [backtick; backtick; backtick].

(** The compiled pattern, its parts set apart by spaces here:
    [```  (?: [a-zA-Z0-9_]* )  \s*  ( [\s\S]*? )  \s*  ```],
    with the flag [re.DOTALL] (which changes only the meaning of a dot, and
    the pattern has none). *)
Definition code_regex : regex :=
  Seq (Lit backtick) (Seq (Lit backtick) (Seq (Lit backtick)
  (Seq (NonCapture (Star is_word))
  (Seq (Star is_space)
  (Seq (Group1 (StarLazy is_any))
  (Seq (Star is_space)
  (Seq (Lit backtick) (Seq (Lit backtick) (Lit backtick))))))))).

Definition trace_line : str := of_string "Running code parser...".

(** After the coercion [raw_code] is a [str]: the text [str()] returned,
    or the string the function was given. *)
Definition parse_and_clean_code (raw_code : pyval) : Py str :=
  py_print trace_line ;;;
  raw_code <- (if negb (isinstance_str raw_code) then py_call_str raw_code
               else ret (py_str raw_code)) ;;
  let clean_text := strip raw_code in
  match search code_regex clean_text with
  | Some m =>
      clean_code <- group1_strip m ;;
      ret clean_code
  | None => ret clean_text
  end.

(** [returns v c]: whatever has been printed before, the call on [v]
    returns the string [c]. *)
Definition returns (v : pyval) (c : str) : Prop :=
  forall out, fst (parse_and_clean_code v out) = Return c.

(** ** Fences and the blocks they delimit *)

Definition starts_fence (s : str) : bool :=
  match s with
  | a :: b :: c :: _ =>
      (a =? backtick)%N && (b =? backtick)%N && (c =? backtick)%N
  | _ => false
  end.

(** [s] contains three consecutive backticks somewhere. *)
Fixpoint has_fence (s : str) : bool :=
  starts_fence s
  || match s with
     | [] => false
     | _ :: s' => has_fence s'
     end.

(** The shortest prefix of [s] after which optional whitespace and a fence
    follow, with what is left after that fence. *)
Fixpoint scan_close (s : str) : option (str * str) :=
  if starts_fence (lstrip s) then Some ([], skipn 3 (lstrip s))
  else
    match s with
    | [] => None
    | c :: s' =>
        match scan_close s' with
        | Some (cap, rest) => Some (c :: cap, rest)
        | None => None
        end
    end.

(** The block that opens at the head of [s], if one does: past the opening
    fence, the whole tag and all the whitespace are skipped, and the body
    runs to the nearest closing fence. *)
Definition block_at (s : str) : option (str * str) :=
  if starts_fence s
  then scan_close (lstrip (drop_while is_word (skipn 3 s)))
  else None.

(** A left-to-right scan for the first block, as a match object. *)
Fixpoint first_block_from (s : str) (i : nat) : option Match :=
  match block_at s with
  | Some (cap, rest) =>
      Some (mkMatch i (i + (length s - length rest)) (Some cap))
  | None =>
      match s with
      | [] => None
      | _ :: s' => first_block_from s' (S i)
      end
  end.

(** ** The pattern as the specification describes it

    An occurrence of the pattern in a text splits it into what precedes the
    opening fence, the tag, the whitespace after it, the body, the
    whitespace before the closing fence, and what follows that fence. *)

Record occurrence : Type := mkOcc {
  o_pre : str;
  o_tag : str;
  o_ws1 : str;
  o_cap : str;
  o_ws2 : str;
  o_post : str
}.

Definition text_of (o : occurrence) : str :=
  o_pre o ++ fence ++ o_tag o ++ o_ws1 o ++ o_cap o ++ o_ws2 o ++ fence
        ++ o_post o.

(** Whether the closing fence must be preceded by at least one whitespace
    character, or may follow the body at once. *)
Inductive closing_ws : Type :=
| WsRequired
| WsOptional.

Definition closing_ok (w : closing_ws) (ws2 : str) : Prop :=
  match w with
  | WsRequired => ws2 <> []
  | WsOptional => True
  end.

Definition occurs (w : closing_ws) (t : str) (o : occurrence) : Prop :=
  t = text_of o
  /\ forallb is_word (o_tag o) = true
  /\ forallb is_space (o_ws1 o) = true
  /\ forallb is_space (o_ws2 o) = true
  /\ closing_ok w (o_ws2 o).

(** The occurrence a search reports: the leftmost one; among those, the one
    with the longest tag; then with the most whitespace after the tag; then
    with the shortest (lazily matched) body. *)
Definition preferred (w : closing_ws) (t : str) (o : occurrence) : Prop :=
  occurs w t o
  /\ forall o', occurs w t o' ->
       length (o_pre o) <= length (o_pre o')
       /\ (length (o_pre o') = length (o_pre o) ->
           length (o_tag o') <= length (o_tag o)
           /\ (length (o_tag o') = length (o_tag o) ->
               length (o_ws1 o') <= length (o_ws1 o)
               /\ (length (o_ws1 o') = length (o_ws1 o) ->
                   length (o_cap o) <= length (o_cap o')))).

Definition match_of (o : occurrence) : Match :=
  mkMatch (length (o_pre o))
          (length (o_pre o) + 3 + length (o_tag o) + length (o_ws1 o)
           + length (o_cap o) + length (o_ws2 o) + 3)
          (Some (o_cap o)).

Definition described_match (w : closing_ws) (t : str) (m : Match) : Prop :=
  exists o, preferred w t o /\ m = match_of o.

(** The described pattern with whitespace required before the closing
    fence, as a pattern of the engine: the code's pattern with one
    whitespace character demanded before the last run of whitespace. *)
Definition described_regex : regex :=
  Seq (Lit backtick) (Seq (Lit backtick) (Seq (Lit backtick)
  (Seq (NonCapture (Star is_word))
  (Seq (Star is_space)
  (Seq (Group1 (StarLazy is_any))
  (Seq (Cls is_space) (Seq (Star is_space)
  (Seq (Lit backtick) (Seq (Lit backtick) (Lit backtick)))))))))).

(** ** The prompt builder

    The fragment of [str.format] that the source uses: literal text, the
    escapes of the two braces, and replacement fields that are a plain
    keyword name, rendered with an empty format specification (which is
    [str()] of the value for the values of the model). *)

Definition lbrace : char := 123%N.
Definition rbrace : char := 125%N.

Definition is_digit (c : char) : bool := ((48 <=? c) && (c <=? 57))%N.

(** The outcome of a call: [FmtRaise e] when it raises [e]. A format string
    raises [ValueError] for a lone brace or an unclosed field and
    [KeyError] for a name that is not among the keyword arguments.
    [Unmodelled] stands for the format strings outside the fragment: a
    field that is empty or a number, or that holds a conversion, a format
    specification, an attribute, an index or a brace. *)
Inductive fmt_result : Type :=
| Formatted (s : str)
| FmtRaise (e : exn)
| Unmodelled.

(** Output is produced from left to right: what follows is rendered only
    when it does not fail. *)
Definition fmt_emit (piece : str) (r : fmt_result) : fmt_result :=
  match r with
  | Formatted s => Formatted (piece ++ s)
  | _ => r
  end.

Definition kwargs := list (str * pyval).

Fixpoint lookup_kw (kw : kwargs) (key : str) : option pyval :=
  match kw with
  | [] => None
  | (k, v) :: kw' =>
      if list_eq_dec N.eq_dec k key then Some v else lookup_kw kw' key
  end.

Definition is_identifier (name : str) : bool :=
  match name with
  | [] => false
  | c :: _ => negb (is_digit c) && forallb is_word name
  end.

(** [field] is [None] in literal text, and holds the name read so far
    inside a replacement field. *)
Fixpoint format_from (kw : kwargs) (s : str) (field : option str)
  : fmt_result :=
  match field with
  | None =>
      match s with
      | [] => Formatted []
      | c :: s' =>
          if (c =? lbrace)%N then
            match s' with
            | [] => FmtRaise ValueError
            | c' :: s'' =>
                if (c' =? lbrace)%N
                then fmt_emit [lbrace] (format_from kw s'' None)
                else format_from kw s' (Some [])
            end
          else if (c =? rbrace)%N then
            match s' with
            | [] => FmtRaise ValueError
            | c' :: s'' =>
                if (c' =? rbrace)%N
                then fmt_emit [rbrace] (format_from kw s'' None)
                else FmtRaise ValueError
            end
          else fmt_emit [c] (format_from kw s' None)
      end
  | Some name =>
      match s with
      | [] => FmtRaise ValueError
      | c :: s' =>
          if (c =? rbrace)%N then
            if is_identifier name then
              match lookup_kw kw name with
              | Some v =>
                  match str_call v with
                  | Return text => fmt_emit text (format_from kw s' None)
                  | Raise e => FmtRaise e
                  end
              | None => FmtRaise (KeyError name)
              end
            else Unmodelled
          else if is_word c then format_from kw s' (Some (name ++ [c]))
          else Unmodelled
      end
  end.

(** [template.format] called with the keyword arguments [kw]. *)
Definition format (template : str) (kw : kwargs) : fmt_result :=
  format_from kw template None.

(** The lines of [CODE_GENERATION_TEMPLATE] between its first and its last
    newline. *)
Definition template_lines : list string :=
  [ ("You are an expert React/TypeScript developer. Your task is t"
     ++ "o generate a single-file React component (TSX) based on the "
     ++ "description of a webpage below.");
    "- Use functional components.";
    ("- Use Tailwind CSS for all styling. Do not use inline styles"
     ++ " or CSS files.");
    ("- Create a self-contained component. I only want the layout,"
     ++ " do not try to implement functionality. ");
    "- Do not use hooks like useState";
    ("- Do not include React imports (like 'import React') or any "
     ++ "imports.");
    ("- Use simple SVGs if icons are mentioned, do not import any "
     ++ "icons from any package.");
    "- Ensure the component is complete.";
    ("- **CRITICAL:** Respond with *only* the raw TSX code for the"
     ++ " component which can be directly pasted in react project and"
     ++ " should be able to run it. ");
    ("- Do not add ```tsx, ```javascript, or any explanations, jus"
     ++ "t the code.");
    ("- Start the code with 'const PageComponent = () => {{' and e"
     ++ "xport it at the end.  # <-- THE FIX IS HERE");
    ("- Make sure no es lint or ECMAScript issue is present in fin"
     ++ "al output. If present correct it");
    EmptyString;
    "---";
    "WEBPAGE DESCRIPTION:";
    "{ui_description}";
    "---";
    EmptyString;
    "Your TSX Code:" ]%string.

Definition CODE_GENERATION_TEMPLATE : str :=
  nl :: flat_map (fun l => of_string l ++ [nl]) template_lines.

(** [print] is reached only when [format] has returned, and the prompt is
    returned only when [print] has. *)
Definition build_code_prompt (ui_description : pyval) (out : stdout)
  : fmt_result * stdout :=
  match format CODE_GENERATION_TEMPLATE
               [(of_string "ui_description", ui_description)] with
  | Formatted final_prompt =>
      match py_print final_prompt out with
      | (Return _, out') => (Formatted final_prompt, out')
      | (Raise e, out') => (FmtRaise e, out')
      end
  | r => (r, out)
  end.

(** The template before its replacement field, the doubled brace read as
    one, and the template after the field. *)
Definition prompt_head : str :=
  firstn 852 CODE_GENERATION_TEMPLATE
  ++ firstn 170 (skipn 853 CODE_GENERATION_TEMPLATE).

Definition prompt_tail : str := skipn 1039 CODE_GENERATION_TEMPLATE.

(** [c] is empty, or neither starts nor ends with whitespace. *)
Definition trimmed (c : str) : bool :=
  match c with
  | [] => true
  | a :: _ => negb (is_space a) && negb (is_space (last c a))
  end.

(** An integer, a boolean or [None]. *)
Definition is_scalar (v : pyval) : bool :=
  match v with
  | PyInt _ | PyBool _ | PyNone => true
  | _ => false
  end.

(** [c] is a run of consecutive characters of [s]. *)
Definition substring (c s : str) : Prop := exists a b, s = a ++ c ++ b.

(** ** Sample texts *)

Definition two_blocks : str :=
  of_string "```a" ++ nl :: of_string "X" ++ nl
    :: of_string "``` trailing ```b" ++ nl :: of_string "Y" ++ nl
    :: of_string "```".

Definition with_prose : str :=
  of_string "Here is your code:" ++ nl :: of_string "```tsx" ++ nl
    :: of_string "const PageComponent = () => { return null; };" ++ nl
    :: of_string "```" ++ [nl].

Definition page_component : str :=
  of_string "const PageComponent = () => { return null; };".


Definition blank : str := of_string "   " ++ nl :: tab :: of_string " ".

Definition padded_hello : str :=
  of_string "  " ++ nl :: of_string " hello world " ++ tab :: [nl].

Definition padded_block : str :=
  of_string "  ```py" ++ nl :: of_string " x = 1 " ++ nl
    :: of_string "```" ++ [nl].

(** * Properties *)

(** ** Characters *)

Lemma is_space_backtick : is_space backtick = false.
Proof. reflexivity. Qed.

Lemma is_word_backtick : is_word backtick = false.
Proof. reflexivity. Qed.

Lemma is_any_true c : is_any c = true.
Proof. unfold is_any. destruct (is_space c); reflexivity. Qed.

(** ** Fences *)

Lemma starts_fence_split s :
  starts_fence s = true -> s = fence ++ skipn 3 s.
Proof.
  destruct s as [|a [|b [|c s]]]; simpl; try discriminate.
  intros H. apply andb_prop in H as [H Hc]. apply andb_prop in H as [Ha Hb].
  apply N.eqb_eq in Ha, Hb, Hc. subst. reflexivity.
Qed.

Lemma starts_fence_fence s : starts_fence (fence ++ s) = true.
Proof. reflexivity. Qed.

Lemma starts_fence_head p c s :
  p backtick = false -> p c = true -> starts_fence (c :: s) = false.
Proof.
  intros Hb Hc. destruct s as [|b [|d s]]; simpl; try reflexivity.
  destruct (N.eqb_spec c backtick) as [->|]; [congruence | reflexivity].
Qed.

Lemma starts_fence_app s u :
  starts_fence s = true -> starts_fence (s ++ u) = true.
Proof. destruct s as [|a [|b [|c s]]]; simpl; auto; discriminate. Qed.

Lemma starts_has_fence s : starts_fence s = true -> has_fence s = true.
Proof. intros H. destruct s; simpl in *; rewrite H; reflexivity. Qed.

Lemma has_fence_cons c s :
  has_fence (c :: s) = starts_fence (c :: s) || has_fence s.
Proof. reflexivity. Qed.

Lemma has_fence_tail c s : has_fence (c :: s) = false -> has_fence s = false.
Proof.
  rewrite has_fence_cons. intros H. apply orb_false_elim in H. tauto.
Qed.

Lemma has_fence_suffix a b : has_fence (a ++ b) = false -> has_fence b = false.
Proof.
  induction a as [|c a IH]; simpl app; auto.
  intros H. apply IH. exact (has_fence_tail _ _ H).
Qed.

Lemma has_fence_prefix a b : has_fence (a ++ b) = false -> has_fence a = false.
Proof.
  induction a as [|c a IH]; [reflexivity|].
  rewrite <- app_comm_cons, !has_fence_cons. intros H.
  apply orb_false_elim in H as [H1 H2]. rewrite (IH H2), orb_false_r.
  destruct (starts_fence (c :: a)) eqn:E; [|reflexivity].
  rewrite <- H1. symmetry. exact (starts_fence_app _ b E).
Qed.

Lemma has_fence_drop_while p s :
  p backtick = false -> has_fence (drop_while p s) = has_fence s.
Proof.
  intros Hb. induction s as [|c s IH]; [reflexivity|].
  simpl drop_while. destruct (p c) eqn:E; [|reflexivity].
  rewrite has_fence_cons, (starts_fence_head p _ _ Hb E). exact IH.
Qed.

Lemma has_fence_lstrip s : has_fence (lstrip s) = has_fence s.
Proof. apply has_fence_drop_while, is_space_backtick. Qed.

(** [has_fence] decides the presence of three consecutive backticks. *)
Lemma has_fence_iff s :
  has_fence s = true <-> exists a b, s = a ++ fence ++ b.
Proof.
  split.
  - induction s as [|c s IH]; [discriminate|].
    rewrite has_fence_cons. intros H. apply orb_prop in H as [H|H].
    + exists [], (skipn 3 (c :: s)). exact (starts_fence_split _ H).
    + destruct (IH H) as (a & b & ->). exists (c :: a), b. reflexivity.
  - intros (a & b & ->). destruct (has_fence (a ++ fence ++ b)) eqn:E; auto.
    apply has_fence_suffix in E. discriminate.
Qed.

Lemma take_drop_while p s : s = take_while p s ++ drop_while p s.
Proof.
  induction s as [|c s IH]; [reflexivity|]. simpl.
  destruct (p c); [|reflexivity]. simpl. f_equal. exact IH.
Qed.

Lemma take_while_all p s : forallb p (take_while p s) = true.
Proof.
  induction s as [|c s IH]; [reflexivity|]. simpl.
  destruct (p c) eqn:E; [|reflexivity]. simpl. rewrite E. exact IH.
Qed.

Lemma drop_while_app_all p a b :
  forallb p a = true -> drop_while p (a ++ b) = drop_while p b.
Proof.
  induction a as [|c a IH]; [reflexivity|]. simpl. intros H.
  apply andb_prop in H as [Hc Ha]. rewrite Hc. auto.
Qed.

Lemma drop_while_stop p c s : p c = false -> drop_while p (c :: s) = c :: s.
Proof. intros H. simpl. rewrite H. reflexivity. Qed.

(** ** The closing scan *)

Lemma scan_close_none s : scan_close s = None -> has_fence s = false.
Proof.
  induction s as [|c s IH]; [reflexivity|].
  simpl scan_close. destruct (starts_fence (lstrip (c :: s))) eqn:E;
    [discriminate|].
  destruct (scan_close s) as [[cap rest]|]; [discriminate|]. intros _.
  rewrite has_fence_cons, (IH eq_refl), orb_false_r.
  destruct (starts_fence (c :: s)) eqn:F; [|reflexivity].
  rewrite <- E. unfold lstrip. rewrite (starts_fence_split _ F). reflexivity.
Qed.

Lemma scan_close_free s : has_fence s = false -> scan_close s = None.
Proof.
  induction s as [|c s IH]; [reflexivity|]. intros H.
  simpl scan_close. destruct (starts_fence (lstrip (c :: s))) eqn:E.
  - apply starts_has_fence in E. rewrite has_fence_lstrip in E. congruence.
  - rewrite (IH (has_fence_tail _ _ H)). reflexivity.
Qed.

Lemma scan_close_split s cap rest :
  scan_close s = Some (cap, rest) ->
  exists ws, s = cap ++ ws ++ fence ++ rest /\ forallb is_space ws = true.
Proof.
  revert cap rest. induction s as [|c s IH]; intros cap rest.
  - simpl. discriminate.
  - simpl scan_close. destruct (starts_fence (lstrip (c :: s))) eqn:E.
    + intros [= <- <-]. exists (take_while is_space (c :: s)). split.
      * simpl app. etransitivity; [apply (take_drop_while is_space)|].
        f_equal. exact (starts_fence_split _ E).
      * apply take_while_all.
    + destruct (scan_close s) as [[cap' rest']|]; [|discriminate].
      intros [= <- <-]. destruct (IH _ _ eq_refl) as (ws & -> & Hws).
      exists ws. split; [reflexivity | exact Hws].
Qed.

Lemma scan_close_shortest s cap rest :
  scan_close s = Some (cap, rest) ->
  forall n, n < length cap -> starts_fence (lstrip (skipn n s)) = false.
Proof.
  revert cap rest. induction s as [|c s IH]; intros cap rest.
  - simpl. discriminate.
  - simpl scan_close. destruct (starts_fence (lstrip (c :: s))) eqn:E.
    + intros [= <- <-] n Hn. simpl in Hn. lia.
    + destruct (scan_close s) as [[cap' rest']|]; [|discriminate].
      intros [= <- <-] [|n] Hn; [exact E|].
      simpl in Hn. simpl skipn. apply (IH _ _ eq_refl). lia.
Qed.

(** The body found by the scan holds no fence. *)
Lemma scan_close_cap_free s cap rest :
  scan_close s = Some (cap, rest) -> has_fence cap = false.
Proof.
  intros H. destruct (has_fence cap) eqn:F; [|reflexivity].
  apply has_fence_iff in F as (a & b & ->).
  destruct (scan_close_split _ _ _ H) as (ws & -> & _).
  assert (Hn : length a < length (a ++ fence ++ b))
    by (rewrite !length_app; simpl; lia).
  pose proof (scan_close_shortest _ _ _ H _ Hn) as E.
  rewrite <- !app_assoc, skipn_app, skipn_all, Nat.sub_diag in E.
  simpl in E. discriminate.
Qed.

(** ** The engine on runs of one set *)

Section EngineFacts.
Variable R : Type.
Implicit Types (k : cont R) (s : str) (g : option str).

(** A greedy run keeps all it can take when the rest then matches. *)
Lemma star_greedy_commit p s g k :
  k (drop_while p s) g <> None ->
  star_greedy p s g k = k (drop_while p s) g.
Proof.
  induction s as [|c s IH]; simpl; intros H; [reflexivity|].
  destruct (p c); [|reflexivity].
  rewrite (IH H). destruct (k (drop_while p s) g); congruence.
Qed.

(** Giving characters back is of no use to a continuation that rejects
    them. *)
Lemma star_greedy_skip p s g k :
  (forall c s' g', p c = true -> k (c :: s') g' = None) ->
  star_greedy p s g k = k (drop_while p s) g.
Proof.
  intros Hk. induction s as [|c s IH]; simpl; [reflexivity|].
  destruct (p c) eqn:E; [|reflexivity].
  rewrite IH. destruct (k (drop_while p s) g) eqn:F; [reflexivity|].
  apply Hk, E.
Qed.

Section Closed.
Variable P : str -> Prop.
Hypothesis P_tail : forall c s, P (c :: s) -> P s.

Lemma star_greedy_closed p s g k :
  (forall s' g', P s' -> k s' g' = None) -> P s ->
  star_greedy p s g k = None.
Proof.
  intros Hk. induction s as [|c s IH]; simpl; intros HP; auto.
  destruct (p c); auto. rewrite (IH (P_tail _ _ HP)). auto.
Qed.

Lemma star_lazy_closed p s g k :
  (forall s' g', P s' -> k s' g' = None) -> P s ->
  star_lazy p s g k = None.
Proof.
  intros Hk. induction s as [|c s IH]; simpl; intros HP.
  - rewrite (Hk _ _ HP). reflexivity.
  - rewrite (Hk _ _ HP). destruct (p c); auto.
    apply IH. exact (P_tail _ _ HP).
Qed.
End Closed.

Lemma exec_open r s g k :
  exec (Seq (Lit backtick) (Seq (Lit backtick) (Seq (Lit backtick) r)))
       s g k
  = if starts_fence s then exec r (skipn 3 s) g k else None.
Proof.
  destruct s as [|a [|b [|c s]]]; cbn [exec starts_fence skipn];
    try reflexivity.
  - destruct (backtick =? a)%N; reflexivity.
  - destruct (backtick =? a)%N; [|reflexivity].
    destruct (backtick =? b)%N; reflexivity.
  - rewrite (N.eqb_sym a), (N.eqb_sym b), (N.eqb_sym c).
    destruct (backtick =? a)%N; [|reflexivity].
    destruct (backtick =? b)%N; [|reflexivity].
    destruct (backtick =? c)%N; reflexivity.
Qed.

Lemma exec_fence s g k :
  exec (Seq (Lit backtick) (Seq (Lit backtick) (Lit backtick))) s g k
  = if starts_fence s then k (skipn 3 s) g else None.
Proof.
  destruct s as [|a [|b [|c s]]]; cbn [exec starts_fence skipn];
    try reflexivity.
  - destruct (backtick =? a)%N; reflexivity.
  - destruct (backtick =? a)%N; [|reflexivity].
    destruct (backtick =? b)%N; reflexivity.
  - rewrite (N.eqb_sym a), (N.eqb_sym b), (N.eqb_sym c).
    destruct (backtick =? a)%N; [|reflexivity].
    destruct (backtick =? b)%N; [|reflexivity].
    destruct (backtick =? c)%N; reflexivity.
Qed.

(** Optional whitespace, then the closing fence. *)
Lemma exec_closing s g k :
  exec (Seq (Star is_space)
            (Seq (Lit backtick) (Seq (Lit backtick) (Lit backtick))))
       s g k
  = if starts_fence (lstrip s) then k (skipn 3 (lstrip s)) g else None.
Proof.
  change (star_greedy is_space s g
            (fun s' g' =>
               exec (Seq (Lit backtick)
                         (Seq (Lit backtick) (Lit backtick))) s' g' k)
          = if starts_fence (lstrip s) then k (skipn 3 (lstrip s)) g
            else None).
  rewrite star_greedy_skip.
  - apply exec_fence.
  - intros c s' g' Hc. rewrite exec_fence.
    rewrite (starts_fence_head is_space c s' is_space_backtick Hc).
    reflexivity.
Qed.

(** The lazy body stops at the first place the closing part accepts. *)
Lemma star_lazy_scan (F : str -> option str) k :
  (forall s g, k s g <> None) ->
  forall s g,
    star_lazy is_any s g
      (fun s' _ =>
         exec (Seq (Star is_space)
                   (Seq (Lit backtick) (Seq (Lit backtick) (Lit backtick))))
              s' (F s') k)
    = match scan_close s with
      | Some (cap, rest) => k rest (F (skipn (length cap) s))
      | None => None
      end.
Proof.
  intros Hk s g. induction s as [|c s IH].
  - reflexivity.
  - cbv beta iota delta [star_lazy scan_close]. fold (@star_lazy R).
    fold scan_close. rewrite exec_closing.
    destruct (starts_fence (lstrip (c :: s))) eqn:E.
    + change (skipn (length (@nil char)) (c :: s)) with (c :: s).
      destruct (k (skipn 3 (lstrip (c :: s))) (F (c :: s))) eqn:F1;
        [reflexivity|]. exfalso. exact (Hk _ _ F1).
    + rewrite is_any_true, IH.
      destruct (scan_close s) as [[cap rest]|]; reflexivity.
Qed.
End EngineFacts.

(** ** The search of the code's pattern is the scan for the first block *)

Lemma firstn_scan_cap s cap rest :
  scan_close s = Some (cap, rest) ->
  firstn (length s - length (skipn (length cap) s)) s = cap.
Proof.
  intros H. destruct (scan_close_split _ _ _ H) as (ws & -> & _).
  rewrite skipn_app, skipn_all, Nat.sub_diag. cbn [skipn app].
  rewrite length_app, Nat.add_sub.
  rewrite <- (Nat.add_0_r (length cap)), firstn_app_2. apply app_nil_r.
Qed.

Lemma match_at_code_regex s i :
  match_at code_regex s i
  = match block_at s with
    | Some (cap, rest) =>
        Some (mkMatch i (i + (length s - length rest)) (Some cap))
    | None => None
    end.
Proof.
  unfold match_at, code_regex, block_at. rewrite exec_open.
  destruct (starts_fence s); [|reflexivity].
  set (K := fun (s' : str) (g : option str) =>
              Some (mkMatch i (i + (length s - length s')) g)).
  set (s1 := skipn 3 s).
  set (k3 := fun (s3 : str) (g3 : option str) =>
               star_lazy is_any s3 g3
                 (fun s' _ =>
                    exec (Seq (Star is_space)
                              (Seq (Lit backtick)
                                   (Seq (Lit backtick) (Lit backtick))))
                         s' (Some (firstn (length s3 - length s') s3)) K)).
  set (k2 := fun (s2 : str) (g2 : option str) =>
               star_greedy is_space s2 g2 k3).
  change (star_greedy is_word s1 None k2
          = match scan_close (lstrip (drop_while is_word s1)) with
            | Some (cap, rest) => K rest (Some cap)
            | None => None
            end).
  assert (HK : forall s' g, K s' g <> None) by (intros; discriminate).
  assert (Hk3 : forall s3 g3,
             k3 s3 g3 = match scan_close s3 with
                        | Some (cap, rest) => K rest (Some cap)
                        | None => None
                        end).
  { intros s3 g3. unfold k3.
    rewrite (star_lazy_scan _
               (fun s' => Some (firstn (length s3 - length s') s3)) _ HK).
    destruct (scan_close s3) as [[cap rest]|] eqn:E; [|reflexivity].
    rewrite (firstn_scan_cap _ _ _ E). reflexivity. }
  destruct (scan_close (lstrip (drop_while is_word s1)))
    as [[cap rest]|] eqn:E.
  - assert (H3 : k3 (lstrip (drop_while is_word s1)) None = K rest (Some cap))
      by (rewrite Hk3, E; reflexivity).
    assert (H2 : k2 (drop_while is_word s1) None = K rest (Some cap)).
    { unfold k2. rewrite star_greedy_commit; fold (lstrip (drop_while is_word s1));
        rewrite H3; [reflexivity | apply HK]. }
    rewrite star_greedy_commit; rewrite H2; [reflexivity | apply HK].
  - apply scan_close_none in E.
    rewrite has_fence_lstrip, (has_fence_drop_while _ _ is_word_backtick) in E.
    apply (star_greedy_closed _ (fun u => has_fence u = false) has_fence_tail);
      [|exact E].
    intros s2 g2 H2. unfold k2.
    apply (star_greedy_closed _ (fun u => has_fence u = false) has_fence_tail);
      [|exact H2].
    intros s3 g3 H3. rewrite Hk3, (scan_close_free _ H3). reflexivity.
Qed.

Lemma search_from_code_regex s i :
  search_from code_regex s i = first_block_from s i.
Proof.
  revert i. induction s as [|c s IH]; intros i.
  - reflexivity.
  - cbn [search_from first_block_from]. rewrite match_at_code_regex.
    destruct (block_at (c :: s)) as [[cap rest]|]; [reflexivity | apply IH].
Qed.

Lemma search_code_regex s : search code_regex s = first_block_from s 0.
Proof. apply search_from_code_regex. Qed.

(** ** Stripping *)

Lemma drop_while_head p s c u : drop_while p s = c :: u -> p c = false.
Proof.
  induction s as [|a s IH]; simpl; [discriminate|].
  destruct (p a) eqn:E; [exact IH|]. intros [= <- _]. exact E.
Qed.

Lemma drop_while_idem p s : drop_while p (drop_while p s) = drop_while p s.
Proof.
  destruct (drop_while p s) as [|c u] eqn:E; [reflexivity|].
  apply drop_while_stop. exact (drop_while_head _ _ _ _ E).
Qed.

Lemma lstrip_idem s : lstrip (lstrip s) = lstrip s.
Proof. apply drop_while_idem. Qed.

Lemma lstrip_app_stop a d b :
  is_space d = false -> lstrip (a ++ d :: b) = lstrip a ++ d :: b.
Proof.
  intros Hd. induction a as [|c a IH]; simpl.
  - unfold lstrip. simpl. rewrite Hd. reflexivity.
  - unfold lstrip in *. simpl. destruct (is_space c); [exact IH | reflexivity].
Qed.

Lemma lstrip_app a z :
  lstrip (a ++ z) = match lstrip a with
                    | [] => lstrip z
                    | c :: u => (c :: u) ++ z
                    end.
Proof.
  induction a as [|c a IH]; [reflexivity|].
  unfold lstrip in *. simpl. destruct (is_space c); [exact IH | reflexivity].
Qed.

Lemma forallb_rev (p : char -> bool) s :
  forallb p (rev s) = forallb p s.
Proof.
  induction s as [|c s IH]; [reflexivity|].
  simpl. rewrite forallb_app, IH. simpl. rewrite andb_true_r.
  apply andb_comm.
Qed.

Lemma rstrip_app_stop x d b :
  is_space d = false -> rstrip (x ++ d :: b) = x ++ d :: rstrip b.
Proof.
  intros Hd. unfold rstrip.
  rewrite rev_app_distr. simpl rev. rewrite <- app_assoc. simpl app.
  rewrite (lstrip_app_stop _ _ _ Hd), rev_app_distr. simpl rev.
  rewrite rev_involutive, <- app_assoc. reflexivity.
Qed.

(** A text is whitespace throughout, or ends its stripped part with a
    character that is not whitespace, followed by whitespace only. *)
Lemma rstrip_split s :
  (rstrip s = [] /\ forallb is_space s = true)
  \/ exists y d w, s = y ++ d :: w /\ is_space d = false
                   /\ forallb is_space w = true /\ rstrip s = y ++ [d].
Proof.
  unfold rstrip. pose proof (take_drop_while is_space (rev s)) as Hs.
  pose proof (take_while_all is_space (rev s)) as Hw.
  fold (lstrip (rev s)) in Hs.
  revert Hs Hw. generalize (take_while is_space (rev s)). intros w Hs Hw.
  destruct (lstrip (rev s)) as [|d z] eqn:E.
  - left. split; [reflexivity|]. rewrite app_nil_r in Hs.
    rewrite <- forallb_rev, Hs. exact Hw.
  - right. exists (rev z), d, (rev w).
    split; [|split; [|split]].
    + apply (f_equal (@rev char)) in Hs. rewrite rev_involutive in Hs.
      rewrite Hs, rev_app_distr. simpl rev. rewrite <- app_assoc.
      reflexivity.
    + exact (drop_while_head _ _ _ _ E).
    + rewrite forallb_rev. exact Hw.
    + reflexivity.
Qed.

Lemma rstrip_prefix s : exists w, s = rstrip s ++ w.
Proof.
  destruct (rstrip_split s) as [[E _]|(y & d & w & -> & _ & _ & E)].
  - exists s. rewrite E. reflexivity.
  - exists w. rewrite E, <- app_assoc. reflexivity.
Qed.

Lemma rstrip_idem s : rstrip (rstrip s) = rstrip s.
Proof.
  unfold rstrip. rewrite rev_involutive, lstrip_idem. reflexivity.
Qed.

Lemma lstrip_rstrip s : lstrip s = s -> lstrip (rstrip s) = rstrip s.
Proof.
  intros H. destruct (rstrip_split s) as [[E _]|(y & d & w & Hs & Hd & _ & E)].
  - rewrite E. reflexivity.
  - rewrite E. rewrite Hs, (lstrip_app_stop _ _ _ Hd) in H.
    apply app_inv_tail in H. rewrite (lstrip_app_stop _ _ _ Hd), H.
    reflexivity.
Qed.

Lemma strip_idem s : strip (strip s) = strip s.
Proof.
  unfold strip.
  rewrite (lstrip_rstrip _ (lstrip_idem s)). apply rstrip_idem.
Qed.

Lemma has_fence_strip s : has_fence s = false -> has_fence (strip s) = false.
Proof.
  intros H. unfold strip. rewrite <- has_fence_lstrip in H.
  destruct (rstrip_prefix (lstrip s)) as (w & E). rewrite E in H.
  exact (has_fence_prefix _ _ H).
Qed.

(** Stripping a text leaves its fences where they are. *)
Lemma strip_around_fence a b :
  strip (a ++ fence ++ b) = lstrip a ++ fence ++ rstrip b.
Proof.
  unfold strip, fence. simpl app.
  rewrite (lstrip_app_stop _ _ _ is_space_backtick).
  change (lstrip a ++ backtick :: backtick :: backtick :: b)
    with (lstrip a ++ [backtick; backtick] ++ backtick :: b).
  rewrite app_assoc, (rstrip_app_stop _ _ _ is_space_backtick), <- app_assoc.
  reflexivity.
Qed.

(** ** Where the closing scan stops *)

Lemma scan_close_unfold s :
  scan_close s
  = if starts_fence (lstrip s) then Some ([], skipn 3 (lstrip s))
    else match s with
         | [] => None
         | c :: s' =>
             match scan_close s' with
             | Some (cap, rest) => Some (c :: cap, rest)
             | None => None
             end
         end.
Proof. destruct s; reflexivity. Qed.

(** A fence that starts inside [v] and runs into what follows needs at most
    two backticks of what follows. *)
Lemma starts_fence_cut v u :
  v <> [] -> starts_fence (v ++ u) = true ->
  has_fence (v ++ [backtick; backtick]) = true.
Proof.
  intros Hv H. apply starts_has_fence.
  destruct v as [|c [|a [|b v]]]; [congruence | | | exact H].
  - destruct u as [|x [|y u]]; simpl in H; try discriminate.
    apply andb_prop in H as [H _]. apply andb_prop in H as [H _].
    simpl. rewrite H. reflexivity.
  - destruct u as [|x u]; simpl in H; try discriminate.
    apply andb_prop in H as [H _]. simpl. rewrite H. reflexivity.
Qed.

Lemma scan_close_here w rest :
  forallb is_space w = true -> scan_close (w ++ fence ++ rest) = Some ([], rest).
Proof.
  intros Hw. rewrite scan_close_unfold. unfold lstrip.
  rewrite (drop_while_app_all _ _ _ Hw). reflexivity.
Qed.

Lemma scan_close_intro y d w rest :
  is_space d = false -> forallb is_space w = true ->
  has_fence (y ++ d :: w ++ [backtick; backtick]) = false ->
  scan_close (y ++ d :: w ++ fence ++ rest) = Some (y ++ [d], rest).
Proof.
  intros Hd Hw. induction y as [|c y IH]; intros Hf.
  - change (scan_close (d :: w ++ fence ++ rest) = Some ([d], rest)).
    rewrite scan_close_unfold.
    unfold lstrip. rewrite (drop_while_stop _ _ _ Hd).
    destruct (starts_fence (d :: w ++ fence ++ rest)) eqn:E.
    + change (d :: w ++ fence ++ rest) with ((d :: w) ++ fence ++ rest) in E.
      apply starts_fence_cut in E; [|discriminate].
      simpl app in E, Hf. congruence.
    + rewrite (scan_close_here _ _ Hw). reflexivity.
  - rewrite scan_close_unfold.
    destruct (starts_fence (lstrip ((c :: y) ++ d :: w ++ fence ++ rest)))
      eqn:E.
    + rewrite (lstrip_app_stop _ _ _ Hd) in E.
      change (lstrip (c :: y) ++ d :: w ++ fence ++ rest)
        with (lstrip (c :: y) ++ (d :: w) ++ fence ++ rest) in E.
      rewrite app_assoc in E. apply starts_fence_cut in E.
      * rewrite <- app_assoc in E. simpl app in E.
        rewrite <- (lstrip_app_stop _ _ _ Hd), has_fence_lstrip in E.
        congruence.
      * destruct (lstrip (c :: y)); discriminate.
    + cbn [app]. rewrite (IH (has_fence_tail _ _ Hf)). reflexivity.
Qed.

(** After the whitespace that follows the tag, the closing scan returns the
    stripped body when it is followed by whitespace and the closing fence. *)
Lemma scan_close_strip c w rest :
  forallb is_space w = true ->
  has_fence (c ++ w ++ [backtick; backtick]) = false ->
  scan_close (lstrip (c ++ w ++ fence ++ rest)) = Some (strip c, rest).
Proof.
  intros Hw Hf. rewrite <- has_fence_lstrip in Hf.
  rewrite lstrip_app in Hf. rewrite lstrip_app. unfold strip.
  destruct (lstrip c) as [|a u] eqn:E.
  - unfold lstrip. rewrite (drop_while_app_all _ _ _ Hw). reflexivity.
  - destruct (rstrip_split (a :: u))
      as [[_ Ha]|(y & d & w0 & Hs & Hd & Hw0 & Hr)].
    + simpl in Ha. rewrite (drop_while_head _ _ _ _ E) in Ha. discriminate.
    + rewrite Hr. rewrite Hs in *. rewrite <- app_assoc in *.
      simpl app in *. rewrite app_assoc. rewrite app_assoc in Hf.
      apply scan_close_intro; auto.
      rewrite forallb_app, Hw0, Hw. reflexivity.
Qed.

Lemma starts_fence_sep a d b :
  (d =? backtick)%N = false -> starts_fence (a ++ d :: b) = starts_fence a.
Proof.
  intros Hd. destruct a as [|x [|y [|z a]]]; [| | |reflexivity].
  - destruct b as [|p [|q b]]; simpl; rewrite ?Hd; reflexivity.
  - destruct b as [|p b]; simpl; rewrite ?Hd, ?andb_false_r; reflexivity.
  - simpl. rewrite Hd, andb_false_r. reflexivity.
Qed.

Lemma has_fence_sep a d b :
  (d =? backtick)%N = false ->
  has_fence (a ++ d :: b) = has_fence a || has_fence b.
Proof.
  intros Hd. induction a as [|c a IH].
  - change (has_fence ([] ++ d :: b)) with (has_fence (d :: b)).
    rewrite has_fence_cons.
    change (d :: b) with ([] ++ d :: b) at 1.
    rewrite (starts_fence_sep _ _ _ Hd). reflexivity.
  - rewrite <- app_comm_cons, !has_fence_cons, IH, orb_assoc.
    rewrite app_comm_cons, (starts_fence_sep _ _ _ Hd). reflexivity.
Qed.

(** ** Where the first block is *)

Lemma block_at_fenced lang code post :
  forallb is_word lang = true -> has_fence code = false ->
  block_at (fence ++ lang ++ nl :: code ++ nl :: fence ++ post)
  = Some (strip code, post).
Proof.
  intros Hl Hc. unfold block_at. rewrite starts_fence_fence.
  change (skipn 3 (fence ++ lang ++ nl :: code ++ nl :: fence ++ post))
    with (lang ++ nl :: code ++ nl :: fence ++ post).
  rewrite (drop_while_app_all _ _ _ Hl), drop_while_stop by reflexivity.
  change (nl :: code ++ nl :: fence ++ post)
    with ((nl :: code) ++ [nl] ++ fence ++ post).
  rewrite scan_close_strip; [reflexivity | reflexivity |].
  change ((nl :: code) ++ [nl] ++ [backtick; backtick])
    with ([] ++ nl :: code ++ nl :: [backtick; backtick]).
  rewrite !has_fence_sep, Hc by reflexivity. reflexivity.
Qed.

Lemma first_block_skip pre u i :
  has_fence (pre ++ [backtick; backtick]) = false ->
  first_block_from (pre ++ u) i = first_block_from u (i + length pre).
Proof.
  revert i. induction pre as [|c pre IH]; intros i Hf.
  - simpl. rewrite Nat.add_0_r. reflexivity.
  - simpl app. cbn [first_block_from]. unfold block_at.
    destruct (starts_fence (c :: pre ++ u)) eqn:E.
    + change (c :: pre ++ u) with ((c :: pre) ++ u) in E.
      apply starts_fence_cut in E; [congruence | discriminate].
    + rewrite (IH _ (has_fence_tail _ _ Hf)). simpl length. f_equal. lia.
Qed.

Lemma block_at_free s : has_fence (skipn 3 s) = false -> block_at s = None.
Proof.
  intros H. unfold block_at. destruct (starts_fence s); [|reflexivity].
  apply scan_close_free.
  rewrite has_fence_lstrip, (has_fence_drop_while _ _ is_word_backtick).
  exact H.
Qed.

Lemma has_fence_skipn n s : has_fence s = false -> has_fence (skipn n s) = false.
Proof.
  revert s. induction n as [|n IH]; intros [|c s] H; auto.
  simpl. apply IH. exact (has_fence_tail _ _ H).
Qed.

Lemma first_block_free s i : has_fence s = false -> first_block_from s i = None.
Proof.
  revert i. induction s as [|c s IH]; intros i H.
  - reflexivity.
  - cbn [first_block_from]. rewrite block_at_free.
    + apply IH. exact (has_fence_tail _ _ H).
    + apply has_fence_skipn. exact H.
Qed.


Lemma first_block_inv s i m :
  first_block_from s i = Some m ->
  exists pre s' cap rest,
    s = pre ++ s'
    /\ block_at s' = Some (cap, rest)
    /\ m = mkMatch (i + length pre)
                   (i + length pre + (length s' - length rest)) (Some cap)
    /\ forall n, n < length pre -> block_at (skipn n s) = None.
Proof.
  revert i. induction s as [|c s IH]; intros i.
  - simpl. discriminate.
  - cbn [first_block_from]. destruct (block_at (c :: s)) as [[cap rest]|] eqn:E.
    + intros [= <-]. exists [], (c :: s), cap, rest.
      simpl length. rewrite !Nat.add_0_r.
      repeat split; auto. intros n Hn. lia.
    + intros H. destruct (IH _ H) as (pre & s' & cap & rest & -> & Hb & -> & Hp).
      exists (c :: pre), s', cap, rest. simpl length.
      rewrite !Nat.add_succ_r. repeat split; auto.
      intros [|n] Hn; [exact E|]. apply Hp. lia.
Qed.

(** The body captured by a successful search holds no fence. *)
Lemma search_group1 t m :
  search code_regex t = Some m ->
  exists cap, m_group1 m = Some cap /\ has_fence cap = false.
Proof.
  rewrite search_code_regex. intros H.
  destruct (first_block_inv _ _ _ H) as (pre & s' & cap & rest & _ & Hb & -> & _).
  exists cap. split; [reflexivity|].
  unfold block_at in Hb. destruct (starts_fence s'); [|discriminate].
  exact (scan_close_cap_free _ _ _ Hb).
Qed.

Lemma search_free t : has_fence t = false -> search code_regex t = None.
Proof. intros H. rewrite search_code_regex. apply first_block_free, H. Qed.

(** The search on a text that opens with prose, then holds a block whose
    tag and body each end with a newline. *)
Lemma search_fenced pre lang code post :
  has_fence (pre ++ [backtick; backtick]) = false ->
  forallb is_word lang = true -> has_fence code = false ->
  exists e,
    search code_regex (pre ++ fence ++ lang ++ nl :: code ++ nl :: fence ++ post)
    = Some (mkMatch (length pre) e (Some (strip code))).
Proof.
  intros Hp Hl Hc. rewrite search_code_regex, (first_block_skip _ _ _ Hp).
  destruct lang as [|a lang]; cbn [app first_block_from fence].
  - change (backtick :: backtick :: backtick :: nl :: code ++ nl
              :: backtick :: backtick :: backtick :: post)
      with (fence ++ [] ++ nl :: code ++ nl :: fence ++ post).
    rewrite (block_at_fenced [] _ _ Hl Hc). eexists. reflexivity.
  - change (backtick :: backtick :: backtick :: a :: lang ++ nl :: code ++ nl
              :: backtick :: backtick :: backtick :: post)
      with (fence ++ (a :: lang) ++ nl :: code ++ nl :: fence ++ post).
    rewrite (block_at_fenced _ _ _ Hl Hc). eexists. reflexivity.
Qed.

(** ** The function *)

Lemma print_trace out :
  py_print trace_line out = (Return tt, out ++ [trace_line]).
Proof. reflexivity. Qed.

Lemma str_call_text v t : str_call v = Return t -> t = py_str v.
Proof.
  destruct v as [s|z|b| |r]; cbn [str_call]; try congruence.
  - destruct (Nat.leb (int_digits z) int_max_str_digits); congruence.
  - intros ->. reflexivity.
Qed.

Lemma str_call_returns v t : str_call v = Return t -> str_call v = Return (py_str v).
Proof. intros H. rewrite H. f_equal. exact (str_call_text _ _ H). Qed.

(** The outcome of a call: the trace is written first, then [str()] may
    raise, and nothing else does. *)
Lemma parse_outcome v out :
  parse_and_clean_code v out
  = (match str_call v with
     | Return t =>
         match search code_regex (strip t) with
         | Some m =>
             match m_group1 m with
             | Some g => Return (strip g)
             | None => Raise AttributeError
             end
         | None => Return (strip t)
         end
     | Raise e => Raise e
     end, out ++ [trace_line]).
Proof.
  unfold parse_and_clean_code, bind. rewrite print_trace.
  assert (H : (if negb (isinstance_str v) then py_call_str v
               else ret (py_str v)) (out ++ [trace_line])
              = (str_call v, out ++ [trace_line]))
    by (destruct v; reflexivity).
  rewrite H. destruct (str_call v) as [t|e]; [|reflexivity].
  unfold group1_strip, ret, raise.
  destruct (search code_regex (strip t)) as [m|]; [|reflexivity].
  destruct (m_group1 m); reflexivity.
Qed.

Lemma parse_run s out :
  parse_and_clean_code (PyStr s) out
  = (match search code_regex (strip s) with
     | Some m =>
         match m_group1 m with
         | Some g => Return (strip g)
         | None => Raise AttributeError
         end
     | None => Return (strip s)
     end, out ++ [trace_line]).
Proof. apply parse_outcome. Qed.

Lemma parse_raise v e out :
  str_call v = Raise e ->
  parse_and_clean_code v out = (Raise e, out ++ [trace_line]).
Proof. intros H. rewrite parse_outcome, H. reflexivity. Qed.

Lemma parse_cases v :
  str_call v = Return (py_str v) ->
  exists c,
    (forall out, parse_and_clean_code v out = (Return c, out ++ [trace_line]))
    /\ strip c = c
    /\ ((search code_regex (strip (py_str v)) = None /\ c = strip (py_str v))
        \/ exists m cap,
             search code_regex (strip (py_str v)) = Some m
             /\ m_group1 m = Some cap /\ has_fence cap = false
             /\ c = strip cap).
Proof.
  intros Hv. destruct (search code_regex (strip (py_str v))) as [m|] eqn:E.
  - destruct (search_group1 _ _ E) as (cap & Hg & Hf).
    exists (strip cap). split; [|split].
    + intros out. rewrite parse_outcome, Hv, E, Hg. reflexivity.
    + apply strip_idem.
    + right. exists m, cap. auto.
  - exists (strip (py_str v)). split; [|split].
    + intros out. rewrite parse_outcome, Hv, E. reflexivity.
    + apply strip_idem.
    + left. auto.
Qed.

(** A call that returns has had [str()] return. *)
Lemma returns_str_call v c : returns v c -> str_call v = Return (py_str v).
Proof.
  intros Hr. specialize (Hr []). rewrite parse_outcome in Hr. cbn [fst] in Hr.
  destruct (str_call v) as [t|e] eqn:E; [|discriminate].
  f_equal. exact (str_call_text _ _ E).
Qed.

(** A stripped text without a block is returned as it is. *)
Lemma parse_fixed c :
  strip c = c -> search code_regex c = None -> returns (PyStr c) c.
Proof.
  intros Hs Hn out. rewrite parse_run. cbn [py_str fst].
  rewrite Hs, Hn. reflexivity.
Qed.

(** ** The search against the described pattern *)

Lemma app_eq_length (a a' b b' : str) :
  length a = length a' -> a ++ b = a' ++ b' -> a = a' /\ b = b'.
Proof.
  revert a'. induction a as [|c a IH]; intros [|c' a'] Hl H;
    try discriminate.
  - auto.
  - simpl in Hl, H. injection H as -> H. injection Hl as Hl.
    destruct (IH _ Hl H) as [-> ->]. auto.
Qed.

Lemma take_while_longest p a b :
  forallb p a = true -> length a <= length (take_while p (a ++ b)).
Proof.
  induction a as [|c a IH]; simpl; intros H; [lia|].
  apply andb_prop in H as [Hc Ha]. rewrite Hc. simpl.
  specialize (IH Ha). lia.
Qed.

Lemma take_while_app_stop p a d b :
  forallb p a = true -> p d = false -> take_while p (a ++ d :: b) = a.
Proof.
  intros Ha Hd. induction a as [|c a IH]; simpl.
  - rewrite Hd. reflexivity.
  - simpl in Ha. apply andb_prop in Ha as [Hc Ha]. rewrite Hc, (IH Ha).
    reflexivity.
Qed.

Lemma first_block_none_inv s i :
  first_block_from s i = None -> forall n, block_at (skipn n s) = None.
Proof.
  revert i. induction s as [|c s IH]; intros i H n.
  - destruct n; reflexivity.
  - cbn [first_block_from] in H.
    destruct (block_at (c :: s)) as [[cap rest]|] eqn:E; [discriminate|].
    destruct n as [|n]; [exact E|]. exact (IH _ H n).
Qed.

Lemma block_at_occurrence x post :
  block_at (fence ++ x ++ fence ++ post) <> None.
Proof.
  unfold block_at. rewrite starts_fence_fence.
  change (skipn 3 (fence ++ x ++ fence ++ post)) with (x ++ fence ++ post).
  intros H. apply scan_close_none in H.
  rewrite has_fence_lstrip, (has_fence_drop_while _ _ is_word_backtick) in H.
  apply has_fence_suffix in H. discriminate.
Qed.

Lemma occurs_text w t o :
  occurs w t o ->
  t = o_pre o ++ fence
        ++ (o_tag o ++ o_ws1 o ++ o_cap o ++ o_ws2 o) ++ fence ++ o_post o.
Proof.
  intros (-> & _). unfold text_of. rewrite <- !app_assoc. reflexivity.
Qed.

Lemma occurs_block w t o :
  occurs w t o -> block_at (skipn (length (o_pre o)) t) <> None.
Proof.
  intros H. rewrite (occurs_text _ _ _ H), skipn_app, skipn_all, Nat.sub_diag.
  cbn [skipn app]. apply block_at_occurrence.
Qed.

(** What the search finds is the preferred occurrence of the described
    pattern, whitespace before the closing fence being optional. *)
Lemma search_described t m :
  search code_regex t = Some m -> described_match WsOptional t m.
Proof.
  rewrite search_code_regex. intros H.
  destruct (first_block_inv _ _ _ H)
    as (pre & s' & cap & rest & -> & Hb & -> & Hfirst).
  clear H. unfold block_at in Hb.
  destruct (starts_fence s') eqn:Hsf; [|discriminate].
  rewrite (starts_fence_split _ Hsf) in *. clear Hsf.
  change (skipn 3 (fence ++ skipn 3 s')) with (skipn 3 s') in Hb.
  set (s1 := skipn 3 s') in *. clearbody s1. clear s'.
  destruct (scan_close_split _ _ _ Hb) as (ws2 & Hs3 & Hws2).
  pose proof (take_drop_while is_word s1) as Hs1.
  pose proof (take_drop_while is_space (drop_while is_word s1)) as Hs2.
  fold (lstrip (drop_while is_word s1)) in Hs2. rewrite Hs3 in Hs2.
  exists (mkOcc pre (take_while is_word s1)
                (take_while is_space (drop_while is_word s1)) cap ws2 rest).
  assert (Htext : pre ++ fence ++ s1
                  = pre ++ fence ++ take_while is_word s1
                        ++ take_while is_space (drop_while is_word s1)
                        ++ cap ++ ws2 ++ fence ++ rest).
  { rewrite <- Hs2, <- Hs1. reflexivity. }
  split; [split|].
  - unfold occurs, text_of. cbn [o_pre o_tag o_ws1 o_cap o_ws2 o_post].
    repeat split; auto using take_while_all.
  - intros o' Ho'. cbn [o_pre o_tag o_ws1 o_cap o_ws2 o_post].
    split.
    { destruct (Nat.le_gt_cases (length pre) (length (o_pre o')))
        as [Hle|Hlt]; [exact Hle|].
      exfalso. exact (occurs_block _ _ _ Ho' (Hfirst _ Hlt)). }
    intros Hpre. destruct Ho' as (Ht & Htag & Hws1 & Hws2' & _).
    unfold text_of in Ht.
    apply (app_eq_length _ _ _ _ (eq_sym Hpre)) in Ht as [_ Ht].
    apply app_inv_head in Ht.
    split.
    { rewrite Ht. apply take_while_longest, Htag. }
    intros Hlt. rewrite Hs1 in Ht.
    apply (app_eq_length _ _ _ _ (eq_sym Hlt)) in Ht as [_ Ht].
    split.
    { rewrite Ht. apply take_while_longest, Hws1. }
    intros Hlw. rewrite Hs2 in Ht.
    apply (app_eq_length _ _ _ _ (eq_sym Hlw)) in Ht as [_ Ht].
    destruct (Nat.le_gt_cases (length cap) (length (o_cap o')))
      as [Hle|Hgt]; [exact Hle|].
    exfalso. pose proof (scan_close_shortest _ _ _ Hb _ Hgt) as E.
    rewrite Hs3, Ht, skipn_app, skipn_all, Nat.sub_diag in E.
    cbn [skipn app] in E. unfold lstrip in E.
    rewrite (drop_while_app_all _ _ _ Hws2') in E. discriminate.
  - unfold match_of. cbn [o_pre o_tag o_ws1 o_cap o_ws2 o_post].
    f_equal. apply (f_equal (@length char)) in Htext.
    rewrite !length_app in Htext. rewrite !length_app.
    change (length fence) with 3 in *. lia.
Qed.

(** Two preferred occurrences in one text give the same match object. *)
Lemma preferred_unique w t o o' :
  preferred w t o -> preferred w t o' -> match_of o = match_of o'.
Proof.
  intros [Ho Hmin] [Ho' Hmin'].
  destruct (Hmin _ Ho') as [H1 H2]. destruct (Hmin' _ Ho) as [H1' H2'].
  assert (Hpre : length (o_pre o') = length (o_pre o)) by lia.
  destruct (H2 Hpre) as [H3 H4]. destruct (H2' (eq_sym Hpre)) as [H3' H4'].
  assert (Htag : length (o_tag o') = length (o_tag o)) by lia.
  destruct (H4 Htag) as [H5 H6]. destruct (H4' (eq_sym Htag)) as [H5' H6'].
  assert (Hws : length (o_ws1 o') = length (o_ws1 o)) by lia.
  pose proof (H6 Hws) as H7. pose proof (H6' (eq_sym Hws)) as H7'.
  assert (Hcap : length (o_cap o') = length (o_cap o)) by lia.
  destruct Ho as (Ht & _ & _ & Hw2 & _).
  destruct Ho' as (Ht' & _ & _ & Hw2' & _).
  rewrite Ht in Ht'. unfold text_of in Ht'.
  apply (app_eq_length _ _ _ _ (eq_sym Hpre)) in Ht' as [_ E].
  apply app_inv_head in E.
  apply (app_eq_length _ _ _ _ (eq_sym Htag)) in E as [_ E].
  apply (app_eq_length _ _ _ _ (eq_sym Hws)) in E as [_ E].
  apply (app_eq_length _ _ _ _ (eq_sym Hcap)) in E as [Ec E].
  apply (f_equal (take_while is_space)) in E. unfold fence in E.
  cbn [app] in E.
  rewrite !take_while_app_stop in E by auto using is_space_backtick.
  unfold match_of. rewrite Ec, E, Hpre, Htag, Hws. reflexivity.
Qed.

(** ** Texts without whitespace at either end *)

Lemma lstrip_all_space w : forallb is_space w = true -> lstrip w = [].
Proof.
  intros H. rewrite <- (app_nil_r w). unfold lstrip.
  rewrite (drop_while_app_all _ _ _ H). reflexivity.
Qed.

Lemma rstrip_app_all s w : forallb is_space w = true -> rstrip (s ++ w) = rstrip s.
Proof.
  intros H. unfold rstrip, lstrip. rewrite rev_app_distr.
  rewrite drop_while_app_all; [reflexivity|].
  rewrite forallb_rev. exact H.
Qed.

Lemma strip_padded w1 s w2 :
  forallb is_space w1 = true -> forallb is_space w2 = true ->
  strip (w1 ++ s ++ w2) = strip s.
Proof.
  intros H1 H2. unfold strip.
  replace (lstrip (w1 ++ s ++ w2)) with (lstrip (s ++ w2))
    by (unfold lstrip; rewrite (drop_while_app_all _ _ _ H1); reflexivity).
  rewrite lstrip_app. destruct (lstrip s) as [|c u] eqn:E.
  - rewrite (lstrip_all_space _ H2). reflexivity.
  - apply rstrip_app_all, H2.
Qed.

Lemma last_in_tail (w : str) (x d : char) : In (last (x :: w) d) (x :: w).
Proof.
  revert x. induction w as [|y w IH]; intros x.
  - left. reflexivity.
  - right. exact (IH y).
Qed.

Lemma last_app_cons (y w : str) (x a : char) :
  last (y ++ x :: w) a = last (x :: w) a.
Proof.
  induction y as [|c y IH]; [reflexivity|].
  rewrite <- app_comm_cons. rewrite <- IH.
  destruct (y ++ x :: w) eqn:E; [|reflexivity].
  destruct y; discriminate.
Qed.

(** A trimmed text is left as it is by [strip]. *)
Lemma trimmed_strip c : trimmed c = true -> strip c = c.
Proof.
  destruct c as [|a c]; [reflexivity|]. unfold trimmed. intros H.
  apply andb_prop in H as [Ha Hl]. apply negb_true_iff in Ha, Hl.
  unfold strip. unfold lstrip at 1. rewrite (drop_while_stop _ _ _ Ha).
  destruct (rstrip_split (a :: c))
    as [[_ Hall]|(y & d & w & Hc & Hd & Hw & Hr)].
  - simpl in Hall. rewrite Ha in Hall. discriminate.
  - rewrite Hr. destruct w as [|x w].
    + symmetry. exact Hc.
    + exfalso. rewrite Hc in Hl.
      change (y ++ d :: x :: w) with (y ++ [d] ++ x :: w) in Hl.
      rewrite app_assoc, last_app_cons in Hl.
      rewrite forallb_forall in Hw.
      rewrite (Hw _ (last_in_tail w x a)) in Hl. discriminate.
Qed.

(** What [strip] returns is trimmed, and it is the text less a run of
    whitespace at each end. *)
Lemma strip_spec s :
  exists w1 w2,
    s = w1 ++ strip s ++ w2
    /\ forallb is_space w1 = true /\ forallb is_space w2 = true
    /\ trimmed (strip s) = true.
Proof.
  unfold strip. pose proof (take_drop_while is_space s) as Hs.
  pose proof (take_while_all is_space s) as Hw1. fold (lstrip s) in Hs.
  destruct (rstrip_split (lstrip s))
    as [[Hr Hall]|(y & d & w & Hu & Hd & Hw & Hr)].
  - exists (take_while is_space s), []. rewrite Hr.
    pose proof (lstrip_all_space _ Hall) as E0. rewrite lstrip_idem in E0.
    rewrite E0 in Hs. repeat split; auto.
  - exists (take_while is_space s), w. rewrite Hr. repeat split; auto.
    + rewrite <- app_assoc. simpl app. rewrite <- Hu. exact Hs.
    + destruct y as [|a y].
      * simpl. rewrite Hd. reflexivity.
      * unfold trimmed. rewrite <- app_comm_cons.
        rewrite app_comm_cons, last_last, Hd.
        unfold lstrip in Hu. rewrite <- app_comm_cons in Hu.
        rewrite (drop_while_head _ _ _ _ Hu). reflexivity.
Qed.

(** ** The model on small texts *)

(** A word right after the opening fence is taken as the tag. *)
Example tag_takes_leading_word :
  returns (PyStr (of_string "```const x = 1;```")) (of_string "x = 1;").
Proof. intros out. vm_compute. reflexivity. Qed.

(** Four backticks hold two overlapping fences and no block. *)
Example overlapping_fences_kept :
  returns (PyStr (of_string "````")) (of_string "````").
Proof. intros out. vm_compute. reflexivity. Qed.

(** [str()] of an integer: 4300 digits pass, 4301 raise. *)
Example int_digit_limit :
  Nat.leb (int_digits (10 ^ 4299)) int_max_str_digits = true
  /\ str_call (PyInt (- 10 ^ 4300)) = Raise ValueError.
Proof. split; vm_compute; reflexivity. Qed.

Example str_of_values :
  py_str (PyInt (-45)) = of_string "-45"
  /\ py_str (PyInt 0) = of_string "0"
  /\ py_str (PyBool true) = of_string "True"
  /\ py_str PyNone = of_string "None".
Proof. repeat split. Qed.

(** * The claims *)

(** C1. When the stripped input is exactly an opening fence, a tag of
    letters, digits and underscores, a newline, a body without three
    consecutive backticks, a newline and a closing fence, the function
    returns the stripped body. *)
Theorem single_block_extracted (s lang code : str) :
  strip s = fence ++ lang ++ [nl] ++ code ++ [nl] ++ fence ->
  forallb is_word lang = true ->
  has_fence code = false ->
  returns (PyStr s) (strip code).
Proof.
  intros Hs Hl Hc out. rewrite parse_run. cbn [py_str fst]. rewrite Hs.
  destruct (search_fenced [] lang code [] eq_refl Hl Hc) as (e & He).
  change ([] ++ fence ++ lang ++ nl :: code ++ nl :: fence ++ [])
    with (fence ++ lang ++ [nl] ++ code ++ [nl] ++ fence) in He.
  rewrite He. cbn [m_group1]. rewrite strip_idem. reflexivity.
Qed.

Lemma single_block_extracted_witness :
  strip padded_block
  = fence ++ of_string "py" ++ [nl] ++ of_string " x = 1 " ++ [nl] ++ fence
  /\ forallb is_word (of_string "py") = true
  /\ has_fence (of_string " x = 1 ") = false
  /\ returns (PyStr padded_block) (of_string "x = 1").
Proof.
  split; [reflexivity|]. split; [reflexivity|]. split; [reflexivity|].
  apply (single_block_extracted padded_block (of_string "py")
           (of_string " x = 1 ")); reflexivity.
Defined.

(** C2. Only the first fenced block counts. Whenever the pattern matches
    the stripped input, the match is the leftmost block of the text and the
    function returns its stripped body, whatever stands before or after
    that block. In particular, when the stripped input holds, after prose in
    which no fence begins, a fence, a tag, a newline, a body without a
    fence, a newline and a fence, the function returns the stripped body of
    that block, further blocks after it being dropped; so it does on the
    two texts of the specification. *)
Theorem first_block_only :
  (forall s pre lang code post : str,
      strip s = pre ++ fence ++ lang ++ [nl] ++ code ++ [nl] ++ fence ++ post ->
      has_fence (pre ++ [backtick; backtick]) = false ->
      forallb is_word lang = true ->
      has_fence code = false ->
      returns (PyStr s) (strip code))
  /\ (forall (s : str) (m : Match),
         search code_regex (strip s) = Some m ->
         described_match WsOptional (strip s) m
         /\ exists body,
              m_group1 m = Some body /\ returns (PyStr s) (strip body))
  /\ returns (PyStr two_blocks) (of_string "X")
  /\ returns (PyStr with_prose) page_component.
Proof.
  split; [|split; [|split]].
  - intros s pre lang code post Hs Hp Hl Hc out.
    rewrite parse_run. cbn [py_str fst]. rewrite Hs.
    destruct (search_fenced pre lang code post Hp Hl Hc) as (e & He).
    change (pre ++ fence ++ lang ++ nl :: code ++ nl :: fence ++ post)
      with (pre ++ fence ++ lang ++ [nl] ++ code ++ [nl] ++ fence ++ post)
      in He.
    rewrite He. cbn [m_group1]. rewrite strip_idem. reflexivity.
  - intros s m Hm. split; [exact (search_described _ _ Hm)|].
    destruct (search_group1 _ _ Hm) as (body & Hg & _).
    exists body. split; [exact Hg|].
    intros out. rewrite parse_run. cbn [py_str fst]. rewrite Hm, Hg.
    reflexivity.
  - intros out. rewrite parse_run. vm_compute. reflexivity.
  - intros out. rewrite parse_run. vm_compute. reflexivity.
Qed.

Lemma first_block_only_witness :
  strip two_blocks
  = [] ++ fence ++ of_string "a" ++ [nl] ++ of_string "X" ++ [nl] ++ fence
       ++ (of_string " trailing ```b" ++ nl :: of_string "Y" ++ nl
             :: of_string "```")
  /\ has_fence ([] ++ [backtick; backtick]) = false
  /\ forallb is_word (of_string "a") = true
  /\ has_fence (of_string "X") = false
  /\ returns (PyStr two_blocks) (of_string "X").
Proof.
  split; [reflexivity|]. split; [reflexivity|]. split; [reflexivity|].
  split; [reflexivity|].
  apply (proj1 first_block_only two_blocks [] (of_string "a") (of_string "X")
           (of_string " trailing ```b" ++ nl :: of_string "Y" ++ nl
              :: of_string "```")); reflexivity.
Defined.

(** C3. On a string without three consecutive backticks the function
    returns the string stripped of leading and trailing whitespace: given
    whitespace, a fence-free text that neither starts nor ends with
    whitespace, and whitespace again, it returns the text in the middle;
    and every string is of that form in exactly the way [strip] says. *)
Theorem no_fence_stripped :
  (forall s : str, has_fence s = false -> returns (PyStr s) (strip s))
  /\ (forall w1 c w2 : str,
         forallb is_space w1 = true -> forallb is_space w2 = true ->
         trimmed c = true -> has_fence c = false ->
         returns (PyStr (w1 ++ c ++ w2)) c)
  /\ (forall s : str,
         exists w1 w2,
           s = w1 ++ strip s ++ w2
           /\ forallb is_space w1 = true /\ forallb is_space w2 = true
           /\ trimmed (strip s) = true)
  /\ returns (PyStr padded_hello) (of_string "hello world").
Proof.
  split; [|split; [|split]].
  - intros s H out. rewrite parse_run. cbn [fst].
    rewrite (search_free _ (has_fence_strip _ H)). reflexivity.
  - intros w1 c w2 H1 H2 Hc Hf out. rewrite parse_run. cbn [fst].
    rewrite (strip_padded _ c _ H1 H2), (trimmed_strip _ Hc).
    rewrite (search_free _ Hf). reflexivity.
  - exact strip_spec.
  - intros out. rewrite parse_run. vm_compute. reflexivity.
Qed.

Lemma no_fence_stripped_witness :
  forallb is_space (of_string "  " ++ nl :: of_string " ") = true
  /\ forallb is_space (of_string " " ++ tab :: [nl]) = true
  /\ trimmed (of_string "hello world") = true
  /\ has_fence (of_string "hello world") = false
  /\ returns (PyStr ((of_string "  " ++ nl :: of_string " ")
                       ++ of_string "hello world"
                       ++ of_string " " ++ tab :: [nl]))
             (of_string "hello world").
Proof.
  repeat (split; [reflexivity|]).
  apply (proj1 (proj2 no_fence_stripped)
           (of_string "  " ++ nl :: of_string " ") (of_string "hello world")
           (of_string " " ++ tab :: [nl])); reflexivity.
Defined.



(** C6, as amended. The function returns a string on every string, the
    empty and the whitespace-only ones included, and on every other value
    on which [str()] returns: such a value is coerced, not rejected. When
    [str()] raises, as it does for an integer of more than 4300 digits,
    the call raises that exception, after the trace has been written. The
    empty string and a whitespace-only string give the empty string, and
    the integer 123 gives its decimal form. *)
Theorem returns_unless_str_raises :
  (forall s : str, exists c : str, returns (PyStr s) c)
  /\ (forall v : pyval,
         str_call v = Return (py_str v) -> exists c : str, returns v c)
  /\ (forall (v : pyval) (e : exn) (out : stdout),
         str_call v = Raise e ->
         parse_and_clean_code v out = (Raise e, out ++ [trace_line]))
  /\ returns (PyStr []) []
  /\ returns (PyStr blank) []
  /\ returns (PyInt 123) (of_string "123").
Proof.
  assert (Hret : forall v, str_call v = Return (py_str v) ->
                           exists c, returns v c).
  { intros v Hv. destruct (parse_cases v Hv) as (c & Hrun & _).
    exists c. intros out. rewrite Hrun. reflexivity. }
  split; [|split; [|split; [|split; [|split]]]].
  - intros s. exact (Hret (PyStr s) eq_refl).
  - exact Hret.
  - intros v e out. apply parse_raise.
  - intros out. rewrite parse_run. reflexivity.
  - intros out. rewrite parse_run. vm_compute. reflexivity.
  - intros out. rewrite parse_outcome. vm_compute. reflexivity.
Qed.

Lemma returns_unless_str_raises_witness :
  str_call (PyObject (Raise (OtherError (of_string "RuntimeError"))))
  = Raise (OtherError (of_string "RuntimeError"))
  /\ parse_and_clean_code
       (PyObject (Raise (OtherError (of_string "RuntimeError")))) []
     = (Raise (OtherError (of_string "RuntimeError")), [] ++ [trace_line])
  /\ str_call (PyInt 123) = Return (py_str (PyInt 123))
  /\ exists c, returns (PyInt 123) c.
Proof.
  split; [reflexivity|]. split.
  - apply (proj1 (proj2 (proj2 returns_unless_str_raises))). reflexivity.
  - split; [reflexivity|].
    apply (proj1 (proj2 returns_unless_str_raises)). reflexivity.
Defined.

(** C6, as stated, fails: [str()] of an integer of 4301 digits raises
    [ValueError], and so does the call; it returns no string. *)
Lemma huge_int_raises :
  (forall out : stdout,
      parse_and_clean_code (PyInt (10 ^ 4300)) out
      = (Raise ValueError, out ++ [trace_line]))
  /\ ~ (exists c : str, returns (PyInt (10 ^ 4300)) c).
Proof.
  assert (H : str_call (PyInt (10 ^ 4300)) = Raise ValueError)
    by (vm_compute; reflexivity).
  split.
  - intros out. exact (parse_raise _ _ out H).
  - intros (c & Hc). specialize (Hc []).
    rewrite (parse_raise _ _ [] H) in Hc. discriminate.
Qed.

(** C7. Idempotence on clean output: if the function returns [c] on a
    string and [c] holds no three consecutive backticks, it returns [c]
    on [c]. *)
Theorem clean_output_fixed (s c : str) :
  returns (PyStr s) c -> has_fence c = false -> returns (PyStr c) c.
Proof.
  intros Hr Hf.
  destruct (parse_cases (PyStr s) eq_refl) as (c0 & Hrun & Hs & _).
  specialize (Hr []). rewrite Hrun in Hr. cbn [fst] in Hr.
  injection Hr as ->. apply parse_fixed; [exact Hs|].
  apply search_free, Hf.
Qed.

Lemma clean_output_fixed_witness :
  returns (PyStr with_prose) page_component
  /\ has_fence page_component = false
  /\ returns (PyStr page_component) page_component.
Proof.
  assert (H : returns (PyStr with_prose) page_component)
    by (intros out; vm_compute; reflexivity).
  split; [exact H|]. split; [reflexivity|].
  apply (clean_output_fixed with_prose page_component H). reflexivity.
Defined.



(** C9. The function is idempotent on every input: calling it on its own
    result gives that result again. *)
Theorem parse_idempotent (v : pyval) (out : stdout) :
  fst ((c <- parse_and_clean_code v ;; parse_and_clean_code (PyStr c)) out)
  = fst (parse_and_clean_code v out).
Proof.
  destruct (str_call v) as [t|e] eqn:E.
  - destruct (parse_cases v (str_call_returns _ _ E)) as (c & Hrun & Hs & Hc).
    unfold bind. rewrite Hrun. cbn [fst].
    apply parse_fixed; [exact Hs|].
    destruct Hc as [[Hn ->]|(m & cap & _ & _ & Hf & ->)].
    + exact Hn.
    + apply search_free, has_fence_strip, Hf.
  - unfold bind. rewrite (parse_raise _ _ out E). reflexivity.
Qed.

(** C10. When the pattern matches, the captured body holds no three
    consecutive backticks, and neither does the string returned. *)
Theorem match_result_fence_free (v : pyval) (m : Match) (c : str) :
  search code_regex (strip (py_str v)) = Some m ->
  returns v c ->
  has_fence c = false
  /\ exists cap, m_group1 m = Some cap /\ has_fence cap = false.
Proof.
  intros Hm Hr. destruct (search_group1 _ _ Hm) as (cap & Hg & Hf).
  split; [|exists cap; auto].
  pose proof (returns_str_call _ _ Hr) as Hv.
  specialize (Hr []). rewrite parse_outcome, Hv, Hm, Hg in Hr.
  cbn [fst] in Hr.
  injection Hr as <-. apply has_fence_strip, Hf.
Qed.

Lemma match_result_fence_free_witness :
  search code_regex (strip (py_str (PyStr two_blocks)))
  = Some (mkMatch 0 10 (Some (of_string "X")))
  /\ returns (PyStr two_blocks) (of_string "X")
  /\ has_fence (of_string "X") = false
  /\ exists cap, m_group1 (mkMatch 0 10 (Some (of_string "X"))) = Some cap
                 /\ has_fence cap = false.
Proof.
  assert (Hm : search code_regex (strip (py_str (PyStr two_blocks)))
               = Some (mkMatch 0 10 (Some (of_string "X"))))
    by (vm_compute; reflexivity).
  assert (Hr : returns (PyStr two_blocks) (of_string "X"))
    by (intros out; vm_compute; reflexivity).
  split; [exact Hm|]. split; [exact Hr|].
  exact (match_result_fence_free (PyStr two_blocks) _ _ Hm Hr).
Defined.

(** C5, as amended. The search of the code's pattern finds exactly the
    described block: three backticks, the whole tag of letters, digits and
    underscores, all the whitespace after it, then the shortest body that is
    followed by three backticks, which whitespace may precede but need not.
    On every text, the match the search returns is the preferred occurrence
    of that pattern, and the search fails only when there is none. *)
Theorem search_finds_described_block (t : str) (m : Match) :
  search code_regex t = Some m <-> described_match WsOptional t m.
Proof.
  split; [apply search_described|].
  intros (o & Hpref & ->).
  destruct (search code_regex t) as [m'|] eqn:E.
  - destruct (search_described _ _ E) as (o' & Hpref' & ->).
    f_equal. exact (preferred_unique _ _ _ _ Hpref' Hpref).
  - exfalso. rewrite search_code_regex in E.
    destruct Hpref as [Ho _].
    exact (occurs_block _ _ _ Ho (first_block_none_inv _ _ E _)).
Qed.

(** C5, as stated, fails: with whitespace required before the closing
    fence, the text of a block closed right after its body holds no
    occurrence of the described pattern, and yet the code's search
    matches it. *)
Lemma closing_whitespace_not_required :
  let t := of_string "```(x)```" in
  search code_regex t = Some (mkMatch 0 9 (Some (of_string "(x)")))
  /\ (forall m, ~ described_match WsRequired t m)
  /\ search described_regex t = None.
Proof.
  intros t. split; [reflexivity|]. split; [|reflexivity].
  intros m (o & [(Ht & _ & _ & Hws & Hne) _] & _).
  destruct (o_ws2 o) as [|c ws] eqn:E; [exact (Hne eq_refl)|].
  simpl in Hws. apply andb_prop in Hws as [Hc _].
  assert (Hin : In c t).
  { rewrite Ht. unfold text_of. rewrite E.
    rewrite !in_app_iff. do 5 right. left. left. reflexivity. }
  assert (Hall : forallb (fun a => negb (is_space a)) t = true)
    by reflexivity.
  rewrite forallb_forall in Hall. specialize (Hall _ Hin).
  rewrite Hc in Hall. discriminate.
Qed.

Lemma search_finds_described_block_witness :
  search code_regex two_blocks = Some (mkMatch 0 10 (Some (of_string "X")))
  /\ described_match WsOptional two_blocks
                     (mkMatch 0 10 (Some (of_string "X"))).
Proof.
  split; [reflexivity|].
  apply (proj1 (search_finds_described_block two_blocks
                  (mkMatch 0 10 (Some (of_string "X"))))).
  reflexivity.
Defined.

(** * Further properties *)

(** ** More on the extractor *)

Lemma substring_trans a b c : substring a b -> substring b c -> substring a c.
Proof.
  intros (x & y & ->) (u & v & ->). exists (u ++ x), (y ++ v).
  rewrite <- !app_assoc. reflexivity.
Qed.

Lemma strip_substring s : substring (strip s) s.
Proof.
  unfold strip. destruct (rstrip_prefix (lstrip s)) as (w & E).
  exists (take_while is_space s), w. rewrite <- E. apply take_drop_while.
Qed.

(** What a successful search has read, piece by piece. *)
Lemma search_inv t m :
  search code_regex t = Some m ->
  exists pre s1 cap rest ws2,
    t = pre ++ fence ++ s1
    /\ m_group1 m = Some cap
    /\ scan_close (lstrip (drop_while is_word s1)) = Some (cap, rest)
    /\ lstrip (drop_while is_word s1) = cap ++ ws2 ++ fence ++ rest
    /\ forallb is_space ws2 = true.
Proof.
  rewrite search_code_regex. intros H.
  destruct (first_block_inv _ _ _ H)
    as (pre & s' & cap & rest & -> & Hb & -> & _).
  unfold block_at in Hb. destruct (starts_fence s') eqn:Hsf; [|discriminate].
  destruct (scan_close_split _ _ _ Hb) as (ws2 & Hs3 & Hws2).
  exists pre, (skipn 3 s'), cap, rest, ws2.
  rewrite <- (starts_fence_split _ Hsf). auto.
Qed.

(** The body the scan returns has no whitespace at either end when the
    scan starts on a character that is not whitespace. *)
Lemma scan_close_cap_stripped s cap rest :
  scan_close s = Some (cap, rest) -> lstrip s = s -> strip cap = cap.
Proof.
  intros H Hl. destruct (scan_close_split _ _ _ H) as (ws & Hs & Hws).
  destruct (rstrip_split cap)
    as [[_ Hall]|(y & d & w & Hcap & Hd & Hw & _)].
  - destruct cap as [|c cap]; [reflexivity|]. exfalso.
    simpl in Hall. apply andb_prop in Hall as [Hc _].
    rewrite Hs in Hl. simpl app in Hl.
    rewrite (drop_while_head _ _ _ _ Hl) in Hc. discriminate.
  - destruct w as [|c w].
    + subst cap. rewrite Hs in Hl. rewrite <- !app_assoc in Hl.
      cbn [app] in Hl. rewrite (lstrip_app_stop _ _ _ Hd) in Hl.
      apply app_inv_tail in Hl. unfold strip.
      rewrite (lstrip_app_stop _ _ _ Hd), Hl.
      rewrite (rstrip_app_stop _ _ _ Hd). reflexivity.
    + exfalso.
      assert (Hn : length (y ++ [d]) < length cap).
      { rewrite Hcap, !length_app. simpl. lia. }
      pose proof (scan_close_shortest _ _ _ H _ Hn) as E.
      rewrite Hs, Hcap in E.
      replace ((y ++ d :: c :: w) ++ ws ++ fence ++ rest)
        with ((y ++ [d]) ++ (c :: w) ++ ws ++ fence ++ rest) in E
        by (rewrite <- !app_assoc; reflexivity).
      rewrite skipn_app, skipn_all, Nat.sub_diag in E. cbn [skipn] in E.
      change ([] ++ (c :: w) ++ ws ++ fence ++ rest)
        with ((c :: w) ++ ws ++ fence ++ rest) in E.
      unfold lstrip in E. rewrite app_assoc in E.
      rewrite drop_while_app_all in E; [discriminate|].
      rewrite forallb_app, Hw, Hws. reflexivity.
Qed.

Lemma search_cap t m :
  search code_regex t = Some m ->
  exists cap,
    m_group1 m = Some cap /\ strip cap = cap /\ substring cap t.
Proof.
  intros H.
  destruct (search_inv _ _ H) as (pre & s1 & cap & rest & ws2
                                  & -> & Hg & Hsc & Hs3 & _).
  exists cap. split; [exact Hg|]. split.
  - exact (scan_close_cap_stripped _ _ _ Hsc (lstrip_idem _)).
  - exists (pre ++ fence ++ take_while is_word s1
              ++ take_while is_space (drop_while is_word s1)),
      (ws2 ++ fence ++ rest).
    rewrite <- !app_assoc. do 2 f_equal.
    rewrite (take_drop_while is_word s1) at 1. f_equal.
    rewrite (take_drop_while is_space (drop_while is_word s1)) at 1.
    f_equal. exact Hs3.
Qed.

(** X1. Whatever the function returns carries no whitespace at either
    end. *)
Theorem result_is_stripped (v : pyval) (c : str) :
  returns v c -> strip c = c.
Proof.
  intros Hr.
  destruct (parse_cases v (returns_str_call _ _ Hr)) as (c0 & Hrun & Hs & _).
  specialize (Hr []). rewrite Hrun in Hr. cbn [fst] in Hr.
  injection Hr as ->. exact Hs.
Qed.

Lemma result_is_stripped_witness :
  returns (PyStr padded_block) (of_string "x = 1")
  /\ strip (of_string "x = 1") = of_string "x = 1".
Proof.
  assert (H : returns (PyStr padded_block) (of_string "x = 1"))
    by (intros out; vm_compute; reflexivity).
  split; [exact H|]. exact (result_is_stripped (PyStr padded_block) _ H).
Defined.

(** X2. The function invents no text: what it returns is a run of
    consecutive characters of the input (of its [str()] for a value that
    is not a string), hence no longer than it. *)
Theorem result_is_substring (v : pyval) (c : str) :
  returns v c ->
  substring c (py_str v) /\ length c <= length (py_str v).
Proof.
  intros Hr.
  assert (Hsub : substring c (py_str v)).
  { destruct (parse_cases v (returns_str_call _ _ Hr))
      as (c0 & Hrun & _ & Hc).
    specialize (Hr []). rewrite Hrun in Hr. cbn [fst] in Hr.
    injection Hr as ->.
    destruct Hc as [[_ ->]|(m & cap & Hm & Hg & _ & ->)].
    - apply strip_substring.
    - destruct (search_cap _ _ Hm) as (cap' & Hg' & _ & Hsub).
      rewrite Hg in Hg'. injection Hg' as <-.
      apply (substring_trans _ _ _ (strip_substring cap)).
      exact (substring_trans _ _ _ Hsub (strip_substring _)). }
  split; [exact Hsub|]. destruct Hsub as (a & b & ->).
  rewrite !length_app. lia.
Qed.

Lemma result_is_substring_witness :
  returns (PyStr with_prose) page_component
  /\ substring page_component (py_str (PyStr with_prose))
  /\ length page_component <= length (py_str (PyStr with_prose)).
Proof.
  assert (H : returns (PyStr with_prose) page_component)
    by (intros out; vm_compute; reflexivity).
  split; [exact H|]. exact (result_is_substring (PyStr with_prose) _ H).
Defined.

(** X3. Group 1 of a match never starts or ends with whitespace: the
    [strip()] applied to it in the match branch changes nothing. *)
Theorem group1_already_stripped (t : str) (m : Match) (cap : str) :
  search code_regex t = Some m -> m_group1 m = Some cap -> strip cap = cap.
Proof.
  intros Hm Hg. destruct (search_cap _ _ Hm) as (cap' & Hg' & Hs & _).
  rewrite Hg in Hg'. injection Hg' as <-. exact Hs.
Qed.

Lemma group1_already_stripped_witness :
  search code_regex two_blocks = Some (mkMatch 0 10 (Some (of_string "X")))
  /\ m_group1 (mkMatch 0 10 (Some (of_string "X"))) = Some (of_string "X")
  /\ strip (of_string "X") = of_string "X".
Proof.
  assert (H : search code_regex two_blocks
              = Some (mkMatch 0 10 (Some (of_string "X"))))
    by (vm_compute; reflexivity).
  split; [exact H|]. split; [reflexivity|].
  exact (group1_already_stripped two_blocks _ (of_string "X") H eq_refl).
Defined.

(** X4. The pattern matches a text exactly when the text holds two fences
    that do not overlap; otherwise the function falls back to the whole
    stripped text. *)
Theorem match_iff_two_fences (t : str) :
  search code_regex t <> None
  <-> exists a b c, t = a ++ fence ++ b ++ fence ++ c.
Proof.
  split.
  - destruct (search code_regex t) as [m|] eqn:E; [|congruence]. intros _.
    destruct (search_inv _ _ E) as (pre & s1 & cap & rest & ws2
                                    & -> & _ & _ & Hs3 & _).
    exists pre,
      (take_while is_word s1 ++ take_while is_space (drop_while is_word s1)
         ++ cap ++ ws2), rest.
    rewrite <- !app_assoc. do 2 f_equal.
    rewrite (take_drop_while is_word s1) at 1. f_equal.
    rewrite (take_drop_while is_space (drop_while is_word s1)) at 1.
    f_equal. exact Hs3.
  - intros (a & b & c & ->) E. rewrite search_code_regex in E.
    pose proof (first_block_none_inv _ _ E (length a)) as H.
    rewrite skipn_app, skipn_all, Nat.sub_diag in H. cbn [skipn app] in H.
    exact (block_at_occurrence _ _ H).
Qed.

Lemma match_iff_two_fences_witness :
  search code_regex (of_string "```(x)```") <> None
  /\ exists a b c, of_string "```(x)```" = a ++ fence ++ b ++ fence ++ c.
Proof.
  assert (H : search code_regex (of_string "```(x)```") <> None)
    by (vm_compute; discriminate).
  split; [exact H|].
  exact (proj1 (match_iff_two_fences (of_string "```(x)```")) H).
Defined.

(** X5. Whitespace around the input does not count: padding a string with
    whitespace on either side leaves the result unchanged. *)
Theorem padding_ignored (w1 s w2 : str) (out : stdout) :
  forallb is_space w1 = true -> forallb is_space w2 = true ->
  fst (parse_and_clean_code (PyStr (w1 ++ s ++ w2)) out)
  = fst (parse_and_clean_code (PyStr s) out).
Proof.
  intros H1 H2. rewrite !parse_run. cbn [py_str fst].
  rewrite (strip_padded _ s _ H1 H2). reflexivity.
Qed.

Lemma padding_ignored_witness :
  forallb is_space [nl; tab] = true
  /\ forallb is_space (of_string "  ") = true
  /\ fst (parse_and_clean_code
            (PyStr ([nl; tab] ++ two_blocks ++ of_string "  ")) [])
     = fst (parse_and_clean_code (PyStr two_blocks) []).
Proof.
  split; [reflexivity|]. split; [reflexivity|].
  apply (padding_ignored [nl; tab] two_blocks (of_string "  ") []);
    reflexivity.
Defined.

(** Characters that are neither whitespace nor a backtick. *)
Lemma plain_text s :
  forallb (fun c => negb (is_space c) && negb (c =? backtick)%N) s = true ->
  strip s = s /\ has_fence s = false.
Proof.
  intros H. split.
  - assert (Hl : forall u,
               forallb (fun c => negb (is_space c)
                                 && negb (c =? backtick)%N) u = true ->
               lstrip u = u).
    { intros [|c u] Hu; [reflexivity|]. simpl in Hu.
      apply andb_prop in Hu as [Hc _]. apply andb_prop in Hc as [Hc _].
      apply negb_true_iff in Hc. apply drop_while_stop, Hc. }
    unfold strip, rstrip. rewrite (Hl _ H), Hl, rev_involutive;
      [reflexivity|]. rewrite forallb_rev. exact H.
  - induction s as [|c s IH]; [reflexivity|]. simpl in H.
    apply andb_prop in H as [Hc Hs]. apply andb_prop in Hc as [_ Hc].
    apply negb_true_iff in Hc. rewrite has_fence_cons, (IH Hs), orb_false_r.
    destruct s as [|a [|b s]]; simpl; rewrite ?Hc; reflexivity.
Qed.

Lemma plain_uint d :
  forallb (fun c => negb (is_space c) && negb (c =? backtick)%N)
          (of_string (NilEmpty.string_of_uint d)) = true.
Proof. induction d; simpl; auto. Qed.

Lemma plain_py_str v :
  is_scalar v = true ->
  forallb (fun c => negb (is_space c) && negb (c =? backtick)%N)
          (py_str v) = true.
Proof.
  destruct v as [s|z|[|]| |r]; try discriminate; intros _; try reflexivity.
  unfold py_str. destruct (Z.to_int z) as [d|d]; simpl.
  - destruct d; try apply plain_uint; reflexivity.
  - destruct d; try apply plain_uint; reflexivity.
Qed.

(** X6. An integer on which [str()] returns (one of at most 4300 digits),
    a boolean and [None] come back as their [str()], unchanged: that text
    holds neither whitespace nor backticks. *)
Theorem scalar_returns_str (v : pyval) (t : str) :
  is_scalar v = true -> str_call v = Return t -> returns v t.
Proof.
  intros Hv Ht out. rewrite (str_call_text _ _ Ht) in Ht |- *.
  destruct (plain_text _ (plain_py_str v Hv)) as [Hs Hf].
  rewrite parse_outcome, Ht. cbn [fst].
  rewrite Hs, (search_free _ Hf). reflexivity.
Qed.

Lemma scalar_returns_str_witness :
  is_scalar (PyInt (-2048)) = true
  /\ str_call (PyInt (-2048)) = Return (of_string "-2048")
  /\ returns (PyInt (-2048)) (of_string "-2048").
Proof.
  split; [reflexivity|]. split; [reflexivity|].
  apply (scalar_returns_str (PyInt (-2048)) (of_string "-2048"));
    reflexivity.
Defined.

Lemma first_block_here s cap rest i :
  block_at s = Some (cap, rest) ->
  first_block_from s i
  = Some (mkMatch i (i + (length s - length rest)) (Some cap)).
Proof. intros H. destruct s; cbn [first_block_from]; rewrite H; reflexivity. Qed.

(** A block whose tag is followed by any character that cannot continue
    it. *)
Lemma search_block pre tag sep x post :
  has_fence (pre ++ [backtick; backtick]) = false ->
  forallb is_word tag = true -> is_word sep = false ->
  has_fence (sep :: x ++ [backtick; backtick]) = false ->
  exists e,
    search code_regex (pre ++ fence ++ tag ++ sep :: x ++ fence ++ post)
    = Some (mkMatch (length pre) e (Some (strip (sep :: x)))).
Proof.
  intros Hp Ht Hsep Hx.
  rewrite search_code_regex, (first_block_skip _ _ _ Hp).
  eexists. apply first_block_here. unfold block_at.
  rewrite starts_fence_fence.
  change (skipn 3 (fence ++ tag ++ sep :: x ++ fence ++ post))
    with (tag ++ sep :: x ++ fence ++ post).
  rewrite (drop_while_app_all _ _ _ Ht), (drop_while_stop _ _ _ Hsep).
  change (sep :: x ++ fence ++ post) with ((sep :: x) ++ [] ++ fence ++ post).
  apply scan_close_strip; [reflexivity | exact Hx].
Qed.

(** X7. The run of letters, digits and underscores that follows the opening
    fence is always taken as the tag and dropped, on one line as well: when
    the stripped input is a block whose tag is followed by a character that
    cannot continue it, the function returns what stands between that tag
    and the closing fence, stripped. *)
Theorem leading_word_dropped (s pre tag x post : str) (sep : char) :
  strip s = pre ++ fence ++ tag ++ sep :: x ++ fence ++ post ->
  has_fence (pre ++ [backtick; backtick]) = false ->
  forallb is_word tag = true ->
  is_word sep = false ->
  has_fence (sep :: x ++ [backtick; backtick]) = false ->
  returns (PyStr s) (strip (sep :: x)).
Proof.
  intros Hs Hp Ht Hsep Hx out. rewrite parse_run. cbn [py_str fst].
  rewrite Hs. destruct (search_block pre tag sep x post Hp Ht Hsep Hx)
    as (e & ->).
  cbn [m_group1]. rewrite strip_idem. reflexivity.
Qed.

Lemma leading_word_dropped_witness :
  strip (of_string "```const x = 1;```")
  = [] ++ fence ++ of_string "const" ++ 32%N :: of_string "x = 1;" ++ fence
       ++ []
  /\ has_fence ([] ++ [backtick; backtick]) = false
  /\ forallb is_word (of_string "const") = true
  /\ is_word 32%N = false
  /\ has_fence (32%N :: of_string "x = 1;" ++ [backtick; backtick]) = false
  /\ returns (PyStr (of_string "```const x = 1;```")) (of_string "x = 1;").
Proof.
  repeat (split; [reflexivity|]).
  apply (leading_word_dropped (of_string "```const x = 1;```") []
           (of_string "const") (of_string "x = 1;") [] 32%N); reflexivity.
Defined.

(** ** Text after the first block *)

Lemma has_fence_app_r a b : has_fence b = true -> has_fence (a ++ b) = true.
Proof.
  intros H. destruct (has_fence (a ++ b)) eqn:E; [reflexivity|].
  apply has_fence_suffix in E. congruence.
Qed.

Lemma starts_fence_app_len u post :
  3 <= length u -> starts_fence (u ++ post) = starts_fence u.
Proof. destruct u as [|a [|b [|c u]]]; simpl; intros H; try lia; reflexivity. Qed.

Lemma has_fence_length u : has_fence u = true -> 3 <= length u.
Proof.
  destruct u as [|a [|b [|c u]]]; simpl; try discriminate. intros _. lia.
Qed.

Lemma drop_while_app_keep p s post :
  drop_while p s <> [] -> drop_while p (s ++ post) = drop_while p s ++ post.
Proof.
  induction s as [|c s IH]; simpl; [congruence|].
  destruct (p c); [exact IH | reflexivity].
Qed.

Lemma scan_close_has_fence s cap rest :
  scan_close s = Some (cap, rest) -> has_fence s = true.
Proof.
  intros H. destruct (has_fence s) eqn:E; [reflexivity|].
  rewrite (scan_close_free _ E) in H. discriminate.
Qed.

Lemma lstrip_app_keep s post :
  has_fence s = true -> lstrip (s ++ post) = lstrip s ++ post.
Proof.
  intros H. apply drop_while_app_keep. intros E.
  rewrite <- has_fence_lstrip in H. unfold lstrip in H. rewrite E in H.
  discriminate.
Qed.

Lemma scan_close_app s post cap rest :
  scan_close s = Some (cap, rest) ->
  scan_close (s ++ post) = Some (cap, rest ++ post).
Proof.
  revert cap rest. induction s as [|c s IH]; intros cap rest.
  - simpl. discriminate.
  - intros H. pose proof (scan_close_has_fence _ _ _ H) as Hf.
    rewrite scan_close_unfold in H. rewrite scan_close_unfold.
    rewrite (lstrip_app_keep _ post Hf).
    rewrite starts_fence_app_len
      by (apply has_fence_length; rewrite has_fence_lstrip; exact Hf).
    destruct (starts_fence (lstrip (c :: s))) eqn:E.
    + injection H as <- <-. rewrite (starts_fence_split _ E) at 1.
      reflexivity.
    + cbn [app]. destruct (scan_close s) as [[cap' rest']|]; [|discriminate].
      injection H as <- <-. rewrite (IH _ _ eq_refl). reflexivity.
Qed.

Lemma block_at_app s post cap rest :
  block_at s = Some (cap, rest) ->
  block_at (s ++ post) = Some (cap, rest ++ post).
Proof.
  unfold block_at. destruct (starts_fence s) eqn:E; [|discriminate].
  intros H. rewrite (starts_fence_app _ post E).
  pose proof (scan_close_has_fence _ _ _ H) as Hf.
  rewrite (starts_fence_split _ E) at 1.
  change (skipn 3 ((fence ++ skipn 3 s) ++ post)) with (skipn 3 s ++ post).
  rewrite has_fence_lstrip in Hf.
  rewrite (drop_while_app_keep is_word (skipn 3 s) post),
    (lstrip_app_keep _ post Hf).
  - apply scan_close_app, H.
  - intros E0. rewrite E0 in Hf. discriminate.
Qed.

Lemma block_at_none_app u post :
  block_at u = None -> has_fence (skipn 3 u) = true ->
  block_at (u ++ post) = None.
Proof.
  unfold block_at. intros H Hf.
  assert (Hlen : 3 <= length u).
  { apply has_fence_length in Hf. rewrite length_skipn in Hf. lia. }
  rewrite (starts_fence_app_len _ post Hlen).
  destruct (starts_fence u); [|reflexivity].
  apply scan_close_none in H.
  rewrite has_fence_lstrip, (has_fence_drop_while _ _ is_word_backtick) in H.
  congruence.
Qed.

Lemma has_fence_after_open v s1 :
  has_fence s1 = true -> has_fence (skipn 3 (v ++ fence ++ s1)) = true.
Proof.
  intros H. rewrite skipn_app. apply has_fence_app_r.
  rewrite skipn_app. apply has_fence_app_r.
  replace (3 - length v - length fence) with 0
    by (change (length fence) with 3; lia).
  exact H.
Qed.

Lemma first_block_intro pre s' cap rest i :
  (forall n, n < length pre -> block_at (skipn n (pre ++ s')) = None) ->
  block_at s' = Some (cap, rest) ->
  first_block_from (pre ++ s') i
  = Some (mkMatch (i + length pre)
                  (i + length pre + (length s' - length rest)) (Some cap)).
Proof.
  revert i. induction pre as [|c pre IH]; intros i Hn Hb.
  - simpl length. rewrite !Nat.add_0_r. apply first_block_here, Hb.
  - assert (H0 : block_at (c :: pre ++ s') = None)
      by (apply (Hn 0); simpl; lia).
    cbn [app first_block_from]. rewrite H0.
    rewrite IH; [|intros n Hlt; apply (Hn (S n)); simpl; lia | exact Hb].
    simpl length. rewrite !Nat.add_succ_r. reflexivity.
Qed.

(** X8. What follows the first block has no say: appending any text to a
    text in which the pattern matches leaves the match as it is, span and
    group 1 alike. *)
Theorem match_stable_under_append (t post : str) (m : Match) :
  search code_regex t = Some m -> search code_regex (t ++ post) = Some m.
Proof.
  rewrite !search_code_regex. intros H.
  destruct (first_block_inv _ _ _ H)
    as (pre & s' & cap & rest & -> & Hb & -> & Hfirst).
  rewrite <- app_assoc.
  rewrite (first_block_intro pre (s' ++ post) cap (rest ++ post)).
  - rewrite !length_app. do 2 f_equal. lia.
  - intros n Hn. rewrite app_assoc, skipn_app.
    replace (n - length (pre ++ s')) with 0 by (rewrite length_app; lia).
    cbn [skipn]. apply block_at_none_app; [exact (Hfirst _ Hn)|].
    rewrite skipn_app. replace (n - length pre) with 0 by lia. cbn [skipn].
    unfold block_at in Hb. destruct (starts_fence s') eqn:E; [|discriminate].
    rewrite (starts_fence_split _ E). apply has_fence_after_open.
    apply scan_close_has_fence in Hb.
    rewrite has_fence_lstrip, (has_fence_drop_while _ _ is_word_backtick)
      in Hb.
    exact Hb.
  - apply block_at_app, Hb.
Qed.

Lemma match_stable_under_append_witness :
  search code_regex (of_string "```(x)```")
  = Some (mkMatch 0 9 (Some (of_string "(x)")))
  /\ search code_regex (of_string "```(x)```" ++ of_string "` and ```more```")
     = Some (mkMatch 0 9 (Some (of_string "(x)"))).
Proof.
  assert (H : search code_regex (of_string "```(x)```")
              = Some (mkMatch 0 9 (Some (of_string "(x)"))))
    by (vm_compute; reflexivity).
  split; [exact H|].
  exact (match_stable_under_append _ (of_string "` and ```more```") _ H).
Defined.

(** ** The prompt builder *)

(** The transcription has the length of the source literal, with the
    doubled brace and the field where the source has them. *)
Example template_shape :
  length CODE_GENERATION_TEMPLATE = 1060
  /\ firstn 2 (skipn 851 CODE_GENERATION_TEMPLATE) = [lbrace; lbrace]
  /\ firstn 16 (skipn 1023 CODE_GENERATION_TEMPLATE)
     = of_string "{ui_description}".
Proof. repeat split. Qed.

(** Formatting sees a keyword argument only through [str()] of it. *)
Lemma format_from_ext kw kw' :
  (forall key, option_map str_call (lookup_kw kw key)
               = option_map str_call (lookup_kw kw' key)) ->
  forall s field, format_from kw s field = format_from kw' s field.
Proof.
  intros H.
  assert (Hn : forall n s field,
             length s <= n -> format_from kw s field = format_from kw' s field).
  { induction n as [|n IH]; intros s field Hl.
    - destruct s; [|simpl in Hl; lia]. destruct field; reflexivity.
    - destruct s as [|c s]; [destruct field; reflexivity|].
      simpl in Hl. destruct field as [name|]; cbn [format_from].
      + destruct (c =? rbrace)%N.
        * destruct (is_identifier name); [|reflexivity].
          specialize (H name).
          destruct (lookup_kw kw name) as [v|], (lookup_kw kw' name) as [v'|];
            try discriminate; [|reflexivity].
          injection H as H. rewrite H.
          destruct (str_call v'); [|reflexivity].
          rewrite (IH s None) by lia. reflexivity.
        * destruct (is_word c); [|reflexivity]. apply IH. lia.
      + destruct (c =? lbrace)%N.
        * destruct s as [|c' s']; [reflexivity|].
          destruct (c' =? lbrace)%N.
          -- rewrite (IH s' None) by (simpl in Hl; lia). reflexivity.
          -- apply IH. lia.
        * destruct (c =? rbrace)%N.
          -- destruct s as [|c' s']; [reflexivity|].
             destruct (c' =? rbrace)%N; [|reflexivity].
             rewrite (IH s' None) by (simpl in Hl; lia). reflexivity.
          -- rewrite (IH s None) by lia. reflexivity. }
  intros s field. exact (Hn (length s) s field (le_n _)).
Qed.

Lemma format_template v :
  format CODE_GENERATION_TEMPLATE [(of_string "ui_description", v)]
  = match str_call v with
    | Return text => Formatted (prompt_head ++ text ++ prompt_tail)
    | Raise e => FmtRaise e
    end.
Proof.
  unfold format.
  rewrite (format_from_ext _ [(of_string "ui_description",
                               PyObject (str_call v))]).
  - destruct (str_call v); vm_compute; reflexivity.
  - intros key. cbn [lookup_kw].
    destruct (list_eq_dec N.eq_dec (of_string "ui_description") key);
      reflexivity.
Qed.

Lemma encodable_prompt text :
  encodable (prompt_head ++ text ++ prompt_tail) = encodable text.
Proof.
  unfold encodable. rewrite !forallb_app.
  replace (forallb (fun c => negb (is_surrogate c)) prompt_head) with true
    by (vm_compute; reflexivity).
  replace (forallb (fun c => negb (is_surrogate c)) prompt_tail) with true
    by (vm_compute; reflexivity).
  rewrite andb_true_r. reflexivity.
Qed.

(** X9. The prompt builder fails in two ways only: when [str()] of the
    description raises, the exception passes through; when the text of the
    description holds a lone surrogate, [print] raises
    [UnicodeEncodeError]; in both cases nothing is printed. Otherwise it
    returns the template with the description put in place of the field,
    character for character (braces in the description are not read as
    fields), the doubled brace of the template read as one, and it prints
    exactly the prompt it returns. *)
Theorem build_code_prompt_outcome (d : pyval) (out : stdout) :
  build_code_prompt d out
  = match str_call d with
    | Raise e => (FmtRaise e, out)
    | Return text =>
        if encodable text
        then (Formatted (prompt_head ++ text ++ prompt_tail),
              out ++ [prompt_head ++ text ++ prompt_tail])
        else (FmtRaise UnicodeEncodeError, out)
    end.
Proof.
  unfold build_code_prompt. rewrite format_template.
  destruct (str_call d) as [text|e]; [|reflexivity].
  unfold py_print. rewrite encodable_prompt.
  destruct (encodable text); reflexivity.
Qed.

Example build_code_prompt_failures :
  build_code_prompt (PyStr [104%N; 55296%N]) [blank]
  = (FmtRaise UnicodeEncodeError, [blank])
  /\ build_code_prompt (PyInt (10 ^ 4300)) [blank]
     = (FmtRaise ValueError, [blank])
  /\ fst (build_code_prompt (PyStr (of_string "{x} }{")) [])
     = Formatted (prompt_head ++ of_string "{x} }{" ++ prompt_tail).
Proof. repeat split; vm_compute; reflexivity. Qed.

Lemma build_code_prompt_returned d out p :
  fst (build_code_prompt d out) = Formatted p ->
  p = prompt_head ++ py_str d ++ prompt_tail.
Proof.
  unfold build_code_prompt. rewrite format_template.
  destruct (str_call d) as [text|e] eqn:E; [|discriminate].
  rewrite (str_call_text _ _ E). unfold py_print.
  destruct (encodable (prompt_head ++ py_str d ++ prompt_tail));
    cbn [fst]; congruence.
Qed.

(** X10. The description can be read back from the prompt: two calls that
    return the same prompt were given descriptions with the same text. *)
Theorem build_code_prompt_injective
        (d1 d2 : pyval) (out1 out2 : stdout) (p : str) :
  fst (build_code_prompt d1 out1) = Formatted p ->
  fst (build_code_prompt d2 out2) = Formatted p ->
  py_str d1 = py_str d2.
Proof.
  intros H1 H2. apply build_code_prompt_returned in H1, H2.
  rewrite H1 in H2. apply app_inv_head in H2.
  exact (app_inv_tail _ _ _ H2).
Qed.

Lemma build_code_prompt_injective_witness :
  fst (build_code_prompt (PyInt 7) [])
  = Formatted (prompt_head ++ of_string "7" ++ prompt_tail)
  /\ fst (build_code_prompt (PyStr (of_string "7")) [blank])
     = Formatted (prompt_head ++ of_string "7" ++ prompt_tail)
  /\ py_str (PyInt 7) = py_str (PyStr (of_string "7")).
Proof.
  assert (H1 : fst (build_code_prompt (PyInt 7) [])
               = Formatted (prompt_head ++ of_string "7" ++ prompt_tail))
    by (vm_compute; reflexivity).
  assert (H2 : fst (build_code_prompt (PyStr (of_string "7")) [blank])
               = Formatted (prompt_head ++ of_string "7" ++ prompt_tail))
    by (vm_compute; reflexivity).
  split; [exact H1|]. split; [exact H2|].
  exact (build_code_prompt_injective (PyInt 7) (PyStr (of_string "7"))
           [] [blank] _ H1 H2).
Defined.

Lemma prompt_head_fences :
  prompt_head
  = (nl :: firstn 740 (skipn 1 prompt_head)) ++ fence
      ++ (of_string "tsx" ++ 44%N :: [32%N] ++ [backtick; backtick])
      ++ backtick :: skipn 752 prompt_head.
Proof. vm_compute. reflexivity. Qed.

(** X11. The template itself holds two fences, ahead of the field. Given a
    prompt the builder returns, the extractor therefore finds its block
    between those two and returns a lone comma, whatever the description
    is. *)
Theorem prompt_cleans_to_comma (d : pyval) (out : stdout) (p : str) :
  fst (build_code_prompt d out) = Formatted p ->
  returns (PyStr p) [44%N].
Proof.
  intros H. apply build_code_prompt_returned in H. subst p. clear out.
  set (pre := firstn 740 (skipn 1 prompt_head)).
  set (rest := skipn 752 prompt_head ++ py_str d ++ prompt_tail).
  destruct (search_block pre (of_string "tsx") 44%N [32%N] (rstrip rest))
    as (e & He); try (vm_compute; reflexivity).
  match type of He with
  | search _ ?t = _ =>
      assert (Hs : strip (prompt_head ++ py_str d ++ prompt_tail) = t)
  end.
  { rewrite prompt_head_fences, <- !app_assoc. fold pre rest.
    rewrite strip_around_fence. f_equal. f_equal.
    rewrite app_assoc.
    exact (rstrip_app_stop _ _ _ is_space_backtick). }
  intros out. rewrite parse_run. cbn [py_str fst]. rewrite Hs, He.
  reflexivity.
Qed.

Lemma prompt_cleans_to_comma_witness :
  fst (build_code_prompt (PyStr two_blocks) [])
  = Formatted (prompt_head ++ two_blocks ++ prompt_tail)
  /\ returns (PyStr (prompt_head ++ two_blocks ++ prompt_tail)) [44%N].
Proof.
  assert (H : fst (build_code_prompt (PyStr two_blocks) [])
              = Formatted (prompt_head ++ two_blocks ++ prompt_tail))
    by (vm_compute; reflexivity).
  split; [exact H|].
  exact (prompt_cleans_to_comma (PyStr two_blocks) [] _ H).
Defined.
